(** * teal-editor: TID decoding, paged listing, range selection,
      rate-limited deletion and rapid-scrobble block detection.

    A shallow embedding of [tid.ts], [records.ts], [deleter.ts] and the block
    scan of [analyze.ts].

    Conventions of the embedding
    - a JS string is a [string]: a sequence of code units below 256;
    - a JS number holding an integer is a [Z]; a number that may be [NaN] is
      an [option Z] with [None] for [NaN];
    - a [Date] is its time value, integer milliseconds since the epoch;
    - [throw] is the [Throw] constructor of [result];
    - the remote service and the wall clock are an explicit [World]. *)

From Stdlib Require Import ZArith NArith List String Ascii Bool Lia Permutation Sorted.
Import ListNotations.

Open Scope string_scope.
Open Scope list_scope.
Open Scope Z_scope.

(** ** Exceptions *)

Inductive result (E A : Type) : Type :=
| Ok (value : A)
| Throw (err : E).

Arguments Ok {E A} value.
Arguments Throw {E A} err.

Definition succeeds {E A} (r : result E A) : bool :=
  match r with Ok _ => true | Throw _ => false end.

(** ** process.exit

    A function that may end the process: it returns, or the process
    exits with a code. *)

Inductive run (A : Type) : Type :=
| Returns (value : A)
| Exits (code : Z).

Arguments Returns {A} value.
Arguments Exits {A} code.

(** ** Array.prototype.sort

    [sort cmp l] is a stable insertion sort driven by a JS comparator
    [cmp a b], whose sign orders [a] and [b]. *)

Section Sort.
Context {A : Type}.
Variable cmp : A -> A -> Z.

Fixpoint insert (x : A) (l : list A) : list A :=
  match l with
  | [] => [x]
  | y :: l' => if 0 <? cmp x y then y :: insert x l' else x :: y :: l'
  end.

Fixpoint sort (l : list A) : list A :=
  match l with
  | [] => []
  | x :: l' => insert x (sort l')
  end.

End Sort.

(** ** tid.ts

    On strings of code units below 256; [TidUtf16] below has the same
    functions on any JS string, and [tidToDate_utf16_agrees] relates the
    two. *)

Module Tid.

(** Base32-sortable alphabet used by AT Protocol. *)
Definition B32_CHARS : string := "234567abcdefghijklmnopqrstuvwxyz".

Inductive TidError : Type :=
| InvalidBase32Character (char : ascii)
| InvalidTIDLength (length : nat).

(** [String.prototype.toLowerCase] on one code unit below 256: the
    letters A-Z and the Latin-1 capitals (all of 192..222 but the
    multiplication sign) move 32 up. *)
Definition toLowerCase (c : ascii) : ascii :=
  let n := N_of_ascii c in
  if ((65 <=? n) && (n <=? 90)
      || (192 <=? n) && (n <=? 222) && negb (n =? 215))%N
  then ascii_of_N (n + 32)
  else c.

(** [s.indexOf(c)] for a one-character needle; [-1] when absent. *)
Fixpoint indexOf_from (s : string) (c : ascii) (i : Z) : Z :=
  match s with
  | EmptyString => -1
  | String d rest => if Ascii.eqb d c then i else indexOf_from rest c (i + 1)
  end.

Definition indexOf (s : string) (c : ascii) : Z := indexOf_from s c 0.

Definition decodeChar (char : ascii) : result TidError Z :=
  let index := indexOf B32_CHARS (toLowerCase char) in
  if index =? -1 then Throw (InvalidBase32Character char) else Ok index.

(** The loop [for (const char of timestampPart)] of [tidToDate]. *)
Fixpoint decodeLoop (timestamp : Z) (chars : string) : result TidError Z :=
  match chars with
  | EmptyString => Ok timestamp
  | String char rest =>
      match decodeChar char with
      | Throw e => Throw e
      | Ok d => decodeLoop (timestamp * 32 + d) rest
      end
  end.

(** The BigInt of microseconds that [tidToDate] accumulates. *)
Definition tidTimestamp (tid : string) : result TidError Z :=
  if negb (String.length tid =? 13)%nat
  then Throw (InvalidTIDLength (String.length tid))
  else decodeLoop 0 (substring 0 11 tid).

(** BigInt division truncates toward zero: [Z.quot]. *)
Definition tidToDate (tid : string) : result TidError Z :=
  match tidTimestamp tid with
  | Throw e => Throw e
  | Ok timestamp => Ok (Z.quot timestamp 1000)
  end.

Definition tidInRange (tid : string) (start end_ : Z)
  : result TidError bool :=
  match tidToDate tid with
  | Throw e => Throw e
  | Ok date => Ok ((start <=? date) && (date <=? end_))
  end.

(** *** The identifier format in the words of the specification *)

(** A character of the 32-symbol alphabet, case-insensitively. *)
Definition in_alphabet (c : ascii) : bool :=
  let n := N_of_ascii c in
  ((50 <=? n) && (n <=? 55) || (97 <=? n) && (n <=? 122)
   || (65 <=? n) && (n <=? 90))%N.

(** A symbol of the alphabet as written, lower case. *)
Definition canonical (c : ascii) : bool :=
  let n := N_of_ascii c in
  ((50 <=? n) && (n <=? 55) || (97 <=? n) && (n <=? 122))%N.

(** The base-32 digit a symbol stands for: its place in the alphabet. *)
Definition symbol_value (c : ascii) : Z :=
  let n := Z.of_N (N_of_ascii c) in
  if n <=? 55 then n - 50 else if n <=? 90 then n - 65 + 6 else n - 97 + 6.

Definition chars (s : string) : list ascii := list_ascii_of_string s.

Definition all_in_alphabet (s : string) : bool := forallb in_alphabet (chars s).

Definition valid_tid (tid : string) : bool :=
  (String.length tid =? 13)%nat && all_in_alphabet tid.

Definition canonical_tid (tid : string) : bool :=
  (String.length tid =? 13)%nat && forallb canonical (chars tid).

(** Digits read most significant first. *)
Fixpoint big_endian (digits : list Z) : Z :=
  match digits with
  | [] => 0
  | d :: ds => d * 32 ^ Z.of_nat (List.length ds) + big_endian ds
  end.

Definition encoded_micros (tid : string) : Z :=
  big_endian (map symbol_value (firstn 11 (chars tid))).

(** All the symbols of a string as digits. *)
Definition digitsOf (s : string) : list Z := map symbol_value (chars s).

End Tid.

(** ** tid.ts on any JS string

    The same functions over strings of UTF-16 code units, a unit being
    an [N] (below 65536 in a JS string).  [length] and [slice] count
    units, [for .. of] walks code points, and [toLowerCase] is the
    built-in, taken as a parameter. *)

Module TidUtf16.

Definition ustring : Type := list N.

Definition unitsOf (s : string) : ustring := map N_of_ascii (Tid.chars s).

(** Base32-sortable alphabet used by AT Protocol. *)
Definition B32_CHARS : ustring := unitsOf Tid.B32_CHARS.

Inductive TidError : Type :=
| InvalidBase32Character (char : ustring)
| InvalidTIDLength (length : nat).

Definition isHighSurrogate (u : N) : bool := ((55296 <=? u) && (u <=? 56319))%N.

Definition isLowSurrogate (u : N) : bool := ((56320 <=? u) && (u <=? 57343))%N.

(** The characters [for (const char of s)] yields: a surrogate pair is
    one character of two units, any other unit is a character. *)
Fixpoint codePoints (s : ustring) : list ustring :=
  match s with
  | [] => []
  | hi :: rest =>
      match rest with
      | lo :: rest' =>
          if isHighSurrogate hi && isLowSurrogate lo
          then [hi; lo] :: codePoints rest'
          else [hi] :: codePoints rest
      | [] => [[hi]]
      end
  end.

Fixpoint startsWith (s needle : ustring) : bool :=
  match needle, s with
  | [], _ => true
  | n :: needle', c :: s' => (c =? n)%N && startsWith s' needle'
  | _ :: _, [] => false
  end.

(** [s.indexOf(needle)]: where [needle] first occurs in [s], [-1] when
    nowhere. *)
Fixpoint indexOf_from (s needle : ustring) (i : Z) : Z :=
  if startsWith s needle then i
  else match s with
       | [] => -1
       | _ :: s' => indexOf_from s' needle (i + 1)
       end.

Definition indexOf (s needle : ustring) : Z := indexOf_from s needle 0.

Section Lowercase.
Variable toLowerCase : ustring -> ustring.

Definition decodeChar (char : ustring) : result TidError Z :=
  let index := indexOf B32_CHARS (toLowerCase char) in
  if index =? -1 then Throw (InvalidBase32Character char) else Ok index.

(** The loop [for (const char of timestampPart)] of [tidToDate]. *)
Fixpoint decodeLoop (timestamp : Z) (chars : list ustring)
  : result TidError Z :=
  match chars with
  | [] => Ok timestamp
  | char :: rest =>
      match decodeChar char with
      | Throw e => Throw e
      | Ok d => decodeLoop (timestamp * 32 + d) rest
      end
  end.

Definition tidTimestamp (tid : ustring) : result TidError Z :=
  if negb (List.length tid =? 13)%nat
  then Throw (InvalidTIDLength (List.length tid))
  else decodeLoop 0 (codePoints (firstn 11 tid)).

Definition tidToDate (tid : ustring) : result TidError Z :=
  match tidTimestamp tid with
  | Throw e => Throw e
  | Ok timestamp => Ok (Z.quot timestamp 1000)
  end.

End Lowercase.

(** *** What is known of the built-in [toLowerCase]

    On one character: the letters A-Z move 32 up, any other ASCII
    character stays, U+212A KELVIN SIGN becomes [k], and every other
    character, a surrogate pair too, gives text with a unit outside
    ASCII. *)
Definition jsLowerCase (toLowerCase : ustring -> ustring) : Prop :=
  (forall u, (65 <= u <= 90)%N -> toLowerCase [u] = [(u + 32)%N])
  /\ (forall u, (u < 128)%N -> ~ (65 <= u <= 90)%N -> toLowerCase [u] = [u])
  /\ toLowerCase [8490%N] = [107%N]
  /\ (forall u, (128 <= u)%N -> u <> 8490%N ->
        exists x, In x (toLowerCase [u]) /\ (128 <= x)%N)
  /\ (forall hi lo, isHighSurrogate hi = true -> isLowSurrogate lo = true ->
        exists x, In x (toLowerCase [hi; lo]) /\ (128 <= x)%N).

(** A function with these properties: right on ASCII, on the Kelvin
    sign and on U+0130, and leaving every other character as it is. *)
Definition lowerBasic (char : ustring) : ustring :=
  match char with
  | [u] =>
      if ((65 <=? u) && (u <=? 90))%N then [(u + 32)%N]
      else if (u =? 8490)%N then [107%N]
      else if (u =? 304)%N then [105%N; 775%N]
      else [u]
  | _ => char
  end.

(** *** The identifier format in the words of the specification *)

(** A character the decoder takes for a symbol of the alphabet: [2]-[7],
    [a]-[z], [A]-[Z], and the Kelvin sign. *)
Definition accepted (u : N) : bool :=
  ((50 <=? u) && (u <=? 55) || (97 <=? u) && (u <=? 122)
   || (65 <=? u) && (u <=? 90) || (u =? 8490))%N.

(** The base-32 digit it stands for. *)
Definition symbol_value (u : N) : Z :=
  let n := Z.of_N u in
  if n <=? 55 then n - 50
  else if n <=? 90 then n - 65 + 6
  else if n <=? 122 then n - 97 + 6
  else 16.

Definition lowerAscii (u : N) : N :=
  if ((65 <=? u) && (u <=? 90))%N then (u + 32)%N else u.

End TidUtf16.

(** ** records.ts *)

Module Records.

Definition PAGE_SIZE : Z := 100.

(** The response of [com.atproto.repo.listRecords]: the URIs of the
    page's records in the order the service gives them, and the cursor. *)
Record ListResponse : Type := {
  records : list string;
  cursor : option string
}.

(** The service: what request number [n] answers to a given cursor. *)
Definition ListService : Type := nat -> option string -> ListResponse.

Record Entry : Type := { uri : string; rkey : string }.

Record RecordRef : Type := {
  ref_rkey : string;
  ref_uri : string;
  createdAt : Z
}.

(** [s.split(sep)] for a one-character separator. *)
Fixpoint split (sep : ascii) (s : string) : list string :=
  match s with
  | EmptyString => [EmptyString]
  | String c rest =>
      if Ascii.eqb c sep then EmptyString :: split sep rest
      else match split sep rest with
           | [] => [String c EmptyString]
           | seg :: segs => String c seg :: segs
           end
  end.

(** A string without a slash. *)
Fixpoint noSlash (s : string) : bool :=
  match s with
  | EmptyString => true
  | String c rest => negb (Ascii.eqb c "/") && noSlash rest
  end.

(** Extract rkey from URI: [record.uri.split('/').pop()]. *)
Definition rkeyOfUri (u : string) : string :=
  last (split "/"%char u) EmptyString.

Definition entryOf (u : string) : Entry := {| uri := u; rkey := rkeyOfUri u |}.

(** [!cursor]: an absent or an empty cursor is falsy. *)
Definition falsy (c : option string) : bool :=
  match c with
  | None => true
  | Some s => (String.length s =? 0)%nat
  end.

(** What the generator has yielded and how many requests it has sent
    when it returns. *)
Record Listing : Type := { yielded : list Entry; requests : nat }.

(** The [while (true)] loop of [listAllRecords], from request number
    [n] with the cursor of the previous response; [None] when [fuel]
    iterations did not reach the [break]. *)
Fixpoint listAllRecords_from (fuel : nat) (listRecords : ListService)
         (n : nat) (cur : option string) : option Listing :=
  match fuel with
  | O => None
  | S fuel' =>
      let response := listRecords n cur in
      let page := map entryOf (records response) in
      let cur' := cursor response in
      if falsy cur' || (Z.of_nat (List.length (records response)) <? PAGE_SIZE)
      then Some {| yielded := page; requests := S n |}
      else match listAllRecords_from fuel' listRecords (S n) cur' with
           | None => None
           | Some rest => Some {| yielded := page ++ yielded rest;
                                  requests := requests rest |}
           end
  end.

Definition listAllRecords (fuel : nat) (listRecords : ListService)
  : option Listing :=
  listAllRecords_from fuel listRecords 0 None.

(** The body of the [for await] loop of [getRecordsInRange]: the [try]
    pushes a match, the [catch] skips a record whose rkey is no TID. *)
Definition scanRecord (start end_ : Z) (matches : list RecordRef)
           (record : Entry) : list RecordRef :=
  match Tid.tidInRange (rkey record) start end_ with
  | Ok true =>
      match Tid.tidToDate (rkey record) with
      | Ok date => matches ++ [{| ref_rkey := rkey record;
                                  ref_uri := uri record;
                                  createdAt := date |}]
      | Throw _ => matches
      end
  | Ok false => matches
  | Throw _ => matches
  end.

Definition byCreatedAt (a b : RecordRef) : Z := createdAt a - createdAt b.

(** [getRecordsInRange] on the entries the generator yields (called
    without [onProgress]). *)
Definition selectInRange (entries : list Entry) (start end_ : Z)
  : list RecordRef :=
  sort byCreatedAt (fold_left (scanRecord start end_) entries []).

Definition getRecordsInRange (fuel : nat) (listRecords : ListService)
           (start end_ : Z) : option (list RecordRef) :=
  match listAllRecords fuel listRecords with
  | None => None
  | Some listing => Some (selectInRange (yielded listing) start end_)
  end.

Definition countRecords (fuel : nat) (listRecords : ListService)
  : option Z :=
  match listAllRecords fuel listRecords with
  | None => None
  | Some listing => Some (Z.of_nat (List.length (yielded listing)))
  end.

(** *** The paged sequence in the words of the specification *)

(** The response to request [n], each request carrying the cursor of
    the response before it and the first one none. *)
Fixpoint responseAt (listRecords : ListService) (n : nat) : ListResponse :=
  listRecords n match n with
                | O => None
                | S m => cursor (responseAt listRecords m)
                end.

Definition cursorSent (listRecords : ListService) (n : nat) : option string :=
  match n with
  | O => None
  | S m => cursor (responseAt listRecords m)
  end.

Definition shortPage (r : ListResponse) : bool :=
  Z.of_nat (List.length (records r)) <? PAGE_SIZE.

Definition lastPage (r : ListResponse) : bool :=
  falsy (cursor r) || shortPage r.

(** The entries of pages [k], .., [k + n - 1], in service order. *)
Definition entriesOfPages (listRecords : ListService) (k n : nat) : list Entry :=
  flat_map (fun j => map entryOf (records (responseAt listRecords j)))
           (seq k n).

(** Sorting identifiers lexicographically, by code unit as JS compares
    strings. *)
Definition lexCompare (a b : string) : Z :=
  match String.compare a b with
  | Lt => -1
  | Eq => 0
  | Gt => 1
  end.

Definition lexSort (tids : list string) : list string := sort lexCompare tids.

Definition inRange (start end_ : Z) (record : Entry) : bool :=
  match Tid.tidInRange (rkey record) start end_ with
  | Ok b => b
  | Throw _ => false
  end.

(** The decoded time of an entry's identifier (0 when it has none). *)
Definition decodedTime (record : Entry) : Z :=
  match Tid.tidToDate (rkey record) with
  | Ok date => date
  | Throw _ => 0
  end.

Definition refOf (record : Entry) : RecordRef :=
  {| ref_rkey := rkey record;
     ref_uri := uri record;
     createdAt := decodedTime record |}.

Fixpoint distinct (l : list Z) : bool :=
  match l with
  | [] => true
  | x :: l' => negb (existsb (Z.eqb x) l') && distinct l'
  end.

(** A service with an endless supply of pages: 100 records and a cursor
    on the first answer, 3 records and still a cursor ever after. *)
Definition endlessService : ListService :=
  fun n _ =>
    {| records := repeat "at://did:plc:me/fm.teal.alpha.feed.play/3jzfcijpj2z2a"
                         (if (n =? 0)%nat then 100 else 3);
       cursor := Some "next" |}.

(** 100 records and a cursor on the first answer, 100 records and no
    cursor on the second. *)
Definition twoFullPages : ListService :=
  fun n _ =>
    {| records := repeat "at://did:plc:me/fm.teal.alpha.feed.play/3jzfcijpj2z2a" 100;
       cursor := if (n =? 0)%nat then Some "next" else None |}.

End Records.

(** ** deleter.ts *)

Module Deleter.

(** Rate limit: 5000 deletions per hour, stay under with buffer. *)
Definition MAX_DELETIONS_PER_HOUR : Z := 4500.
Definition HOUR_MS : Z := 60 * 60 * 1000.

(** Retry configuration. *)
Definition MAX_RETRIES : Z := 3.
Definition BASE_DELAY_MS : Z := 1000.

(** The error a failed [deleteRecord] rejects with, as far as the code
    inspects it: [err.status], [err.message] and
    [err.headers?.['ratelimit-reset']]. *)
Record RemoteError : Type := {
  status : option Z;
  message : option string;
  ratelimit_reset : option string
}.

(** One answer of the service to a [deleteRecord] request: success
    ([None]) or the error, and how long the answer took. *)
Record DeleteResponse : Type := {
  outcome : option RemoteError;
  latency : Z
}.

Definition DeleteService : Type := nat -> DeleteResponse.

Inductive Event : Type :=
| EvDeleteRecord (rkey : string) (at_ : Z)
| EvSleep (ms : option Z).

(** The wall clock, the number of delete requests sent so far and what
    happened, newest first. *)
Record World : Type := {
  clock : Z;
  requests : nat;
  trace : list Event
}.

Record RateLimitState : Type := {
  deletionsThisWindow : Z;
  windowStart : Z
}.

(** *** A state monad over the world *)

Definition M (A : Type) : Type := World -> A * World.

Definition ret {A} (a : A) : M A := fun w => (a, w).

Definition bind {A B} (m : M A) (k : A -> M B) : M B :=
  fun w => let (a, w') := m w in k a w'.

Notation "x <- m ;; k" := (bind m (fun x => k))
  (at level 61, m at next level, right associativity).
Notation "m ;;; k" := (bind m (fun _ => k))
  (at level 61, right associativity).

Definition Date_now : M Z := fun w => (clock w, w).

(** The delay Node's [setTimeout] really arms: anything that is not
    within 1 .. 2^31-1 (also [NaN]) becomes 1 ms. *)
Definition TIMEOUT_MAX : Z := 2 ^ 31 - 1.

Definition timerDelay (ms : option Z) : Z :=
  match ms with
  | Some d => if (1 <=? d) && (d <=? TIMEOUT_MAX) then d else 1
  | None => 1
  end.

(** [await sleep(ms)]: the clock moves on by the timer's delay. *)
Definition sleep (ms : option Z) : M unit :=
  fun w => (tt, {| clock := clock w + timerDelay ms;
                   requests := requests w;
                   trace := EvSleep ms :: trace w |}).

(** *** Number helpers *)

Definition isWhiteSpace (c : ascii) : bool :=
  let n := N_of_ascii c in
  ((9 <=? n) && (n <=? 13) || (n =? 32) || (n =? 160))%N.

Definition isDigit (c : ascii) : bool :=
  let n := N_of_ascii c in ((48 <=? n) && (n <=? 57))%N.

Fixpoint skipWhiteSpace (s : string) : string :=
  match s with
  | String c rest => if isWhiteSpace c then skipWhiteSpace rest else s
  | EmptyString => s
  end.

(** The leading decimal digits of [s]; [acc] is [None] until one is
    read. *)
Fixpoint leadingDigits (s : string) (acc : option Z) : option Z :=
  match s with
  | String c rest =>
      if isDigit c
      then leadingDigits rest
             (Some (10 * match acc with Some a => a | None => 0 end
                    + (Z.of_N (N_of_ascii c) - 48)))
      else acc
  | EmptyString => acc
  end.

(** [parseInt(s, 10)], [None] for [NaN].  The result is the integer the
    digits spell; that is the JS number as long as it is no more than
    2^53 in size, beyond which JS rounds. *)
Definition parseInt10 (s : string) : option Z :=
  match skipWhiteSpace s with
  | String "-"%char rest => option_map Z.opp (leadingDigits rest None)
  | String "+"%char rest => leadingDigits rest None
  | s' => leadingDigits s' None
  end.

(** [Math.max(x, k)] with [x] possibly [NaN]. *)
Definition Math_max (x : option Z) (k : Z) : option Z :=
  option_map (fun v => Z.max v k) x.

Fixpoint startsWith (s prefix : string) : bool :=
  match prefix, s with
  | EmptyString, _ => true
  | String p prefix', String c s' => Ascii.eqb c p && startsWith s' prefix'
  | String _ _, EmptyString => false
  end.

(** [s.includes(needle)]. *)
Fixpoint includes (s needle : string) : bool :=
  startsWith s needle
  || match s with
     | EmptyString => false
     | String _ s' => includes s' needle
     end.

(** A truthy header value: present and not the empty string. *)
Definition truthy (h : option string) : option string :=
  match h with
  | Some EmptyString => None
  | other => other
  end.

Definition isRateLimited (err : RemoteError) : bool :=
  match status err with Some s => s =? 429 | None => false end.

(** [err.status === 400 && err.message?.includes('not found')]. *)
Definition isNotFound (err : RemoteError) : bool :=
  match status err with Some s => s =? 400 | None => false end
  && match message err with Some m => includes m "not found" | None => false end.

(** The wait of the 429 branch of [deleteWithRetry]. *)
Definition rateLimitWait (err : RemoteError) (now : Z) : option Z :=
  match truthy (ratelimit_reset err) with
  | Some resetHeader =>
      option_map (fun secs => secs * 1000 - now) (parseInt10 resetHeader)
  | None => Some 60000
  end.

Definition afterRetries : RemoteError :=
  {| status := None;
     message := Some "Delete failed after retries";
     ratelimit_reset := None |}.

Section Service.
Variable remote : DeleteService.

(** [await agent.com.atproto.repo.deleteRecord({repo, collection, rkey})]. *)
Definition deleteRecord (rkey : string) : M (option RemoteError) :=
  fun w =>
    let response := remote (requests w) in
    (outcome response,
     {| clock := clock w + latency response;
        requests := S (requests w);
        trace := EvDeleteRecord rkey (clock w) :: trace w |}).

(** The [for] loop of [deleteWithRetry] over the attempts still to
    make; [continue] and the end of the body both go on with the
    next attempt. *)
Fixpoint deleteAttempts (attempts : list Z) (lastError : option RemoteError)
         (rkey : string) : M (result RemoteError unit) :=
  match attempts with
  | [] =>
      ret (Throw match lastError with
                 | Some err => err
                 | None => afterRetries
                 end)
  | attempt :: later =>
      r <- deleteRecord rkey ;;
      match r with
      | None => ret (Ok tt)
      | Some err =>
          if isRateLimited err then
            now <- Date_now ;;
            sleep (Math_max (rateLimitWait err now) 1000) ;;;
            deleteAttempts later (Some err) rkey
          else if isNotFound err then
            ret (Ok tt)
          else
            (if attempt <? MAX_RETRIES - 1
             then sleep (Some (BASE_DELAY_MS * 2 ^ attempt))
             else ret tt) ;;;
            deleteAttempts later (Some err) rkey
      end
  end.

(** [attempt = 0; attempt < MAX_RETRIES; attempt++]. *)
Definition attemptsFrom (attempt : Z) : list Z :=
  map (fun k => attempt + Z.of_nat k)
      (seq 0 (Z.to_nat (MAX_RETRIES - attempt))).

Definition deleteWithRetry (rkey : string) : M (result RemoteError unit) :=
  deleteAttempts (attemptsFrom 0) None rkey.

Definition enforceRateLimit (state : RateLimitState) : M RateLimitState :=
  now <- Date_now ;;
  let state1 :=
    if HOUR_MS <=? now - windowStart state
    then {| deletionsThisWindow := 0; windowStart := now |}
    else state in
  if MAX_DELETIONS_PER_HOUR <=? deletionsThisWindow state1 then
    let waitMs := HOUR_MS - (now - windowStart state1) in
    sleep (Some (waitMs + 1000)) ;;;
    now' <- Date_now ;;
    ret {| deletionsThisWindow := 0; windowStart := now' |}
  else ret state1.

(** The variables of [deleteRecords]. *)
Record Progress : Type := {
  rateLimit : RateLimitState;
  deleted : Z;
  failed : Z;
  errors : list string
}.

Definition messageText (m : option string) : string :=
  match m with Some s => s | None => "undefined" end.

(** The bookkeeping after [deleteWithRetry]: the rest of the [try]
    when it returned, the [catch] when it threw. *)
Definition tally (p : Progress) (rl : RateLimitState) (rkey : string)
           (r : result RemoteError unit) : Progress :=
  match r with
  | Ok _ =>
      {| rateLimit := {| deletionsThisWindow := deletionsThisWindow rl + 1;
                         windowStart := windowStart rl |};
         deleted := deleted p + 1;
         failed := failed p;
         errors := errors p |}
  | Throw err =>
      {| rateLimit := rl;
         deleted := deleted p;
         failed := failed p + 1;
         errors := errors p
                   ++ [String.append "Failed to delete "
                         (String.append rkey
                            (String.append ": " (messageText (message err))))] |}
  end.

(** One turn of the [for] loop of [deleteRecords] (called without
    [onProgress]). *)
Definition deleteOne (p : Progress) (rkey : string) : M Progress :=
  rl <- enforceRateLimit (rateLimit p) ;;
  r <- deleteWithRetry rkey ;;
  sleep (Some 50) ;;;
  ret (tally p rl rkey r).

Fixpoint deleteLoop (p : Progress) (rkeys : list string) : M Progress :=
  match rkeys with
  | [] => ret p
  | rkey :: rest => p' <- deleteOne p rkey ;; deleteLoop p' rest
  end.

Definition start : M Progress :=
  now <- Date_now ;;
  ret {| rateLimit := {| deletionsThisWindow := 0; windowStart := now |};
         deleted := 0;
         failed := 0;
         errors := [] |}.

Definition deleteRecords (records : list Records.RecordRef) : M Progress :=
  p <- start ;;
  deleteLoop p (map Records.ref_rkey records).

End Service.

(** *** Services and worlds to run the deleter in *)

Definition succeed : DeleteResponse := {| outcome := None; latency := 0 |}.

Definition reject (err : RemoteError) : DeleteResponse :=
  {| outcome := Some err; latency := 0 |}.

Definition rateLimited (reset : option string) : RemoteError :=
  {| status := Some 429;
     message := Some "Rate Limit Exceeded";
     ratelimit_reset := reset |}.

Definition notFound : RemoteError :=
  {| status := Some 400;
     message := Some "Record not found";
     ratelimit_reset := None |}.

(** Every record deletable at once. *)
Definition instant : DeleteService := fun _ => succeed.


Definition alwaysAbsent : DeleteService := fun _ => reject notFound.

(** The record is there for the first request and gone afterwards. *)
Definition deletedOnce : DeleteService :=
  fun n => match n with O => succeed | S _ => reject notFound end.

Definition newWorld (now : Z) : World :=
  {| clock := now; requests := 0; trace := [] |}.

(** The arguments of the [sleep] calls of a trace, oldest first. *)
Fixpoint sleepsOf (tr : list Event) : list (option Z) :=
  match tr with
  | [] => []
  | EvSleep ms :: tr' => sleepsOf tr' ++ [ms]
  | EvDeleteRecord _ _ :: tr' => sleepsOf tr'
  end.

Definition serverError : RemoteError :=
  {| status := Some 500;
     message := Some "Internal Server Error";
     ratelimit_reset := None |}.

Definition alwaysFailing : DeleteService := fun _ => reject serverError.

(** A failure first, a success afterwards. *)
Definition failingOnce : DeleteService :=
  fun n => match n with O => reject serverError | S _ => succeed end.

(** When the delete requests of a trace were sent, oldest first. *)
Fixpoint deleteTimes (tr : list Event) : list Z :=
  match tr with
  | [] => []
  | EvDeleteRecord _ t :: tr' => deleteTimes tr' ++ [t]
  | EvSleep _ :: tr' => deleteTimes tr'
  end.

Definition recordRef (rkey : string) : Records.RecordRef :=
  {| Records.ref_rkey := rkey;
     Records.ref_uri := rkey;
     Records.createdAt := 0 |}.

End Deleter.

(** ** analyze.ts *)

Module Analyze.

Record Rec : Type := { rkey : string; timestamp : Z }.

(** A call [reportBlock(block, index)]. *)
Record Report : Type := { block : list Rec; index : Z }.

(** The variables of the scan in [main]; [reported] collects the calls
    of [reportBlock] in order. *)
Record Scan : Type := {
  currentBlock : list Rec;
  blockIndex : Z;
  foundAny : bool;
  reported : list Report
}.

Definition len {A} (l : list A) : Z := Z.of_nat (List.length l).

(** [if (currentBlock.length >= minBlock) reportBlock(currentBlock, blockIndex++)]. *)
Definition reportIfLarge (minBlock : Z) (s : Scan) : Scan :=
  if minBlock <=? len (currentBlock s)
  then {| currentBlock := currentBlock s;
          blockIndex := blockIndex s + 1;
          foundAny := true;
          reported := reported s
                      ++ [{| block := currentBlock s; index := blockIndex s |}] |}
  else s.

Definition noRec : Rec := {| rkey := EmptyString; timestamp := 0 |}.

(** The body of [for (let i = 1; i < records.length; i++)]. *)
Definition scanStep (records : list Rec) (gapMs minBlock : Z)
           (s : Scan) (i : nat) : Scan :=
  let delta := timestamp (nth i records noRec)
               - timestamp (nth (i - 1) records noRec) in
  if delta <=? gapMs
  then {| currentBlock := currentBlock s ++ [nth i records noRec];
          blockIndex := blockIndex s;
          foundAny := foundAny s;
          reported := reported s |}
  else let s' := reportIfLarge minBlock s in
       {| currentBlock := [nth i records noRec];
          blockIndex := blockIndex s';
          foundAny := foundAny s';
          reported := reported s' |}.

(** The block scan of [main] on the time-sorted records, with the gap
    in seconds; no records, no scan. *)
Definition scanBlocks (records : list Rec) (gap minBlock : Z) : Scan :=
  let gapMs := gap * 1000 in
  let s0 := {| currentBlock := [nth 0 records noRec];
               blockIndex := 1;
               foundAny := false;
               reported := [] |} in
  reportIfLarge minBlock
    (fold_left (scanStep records gapMs minBlock)
               (seq 1 (List.length records - 1)) s0).

Definition findBlocks (records : list Rec) (gap minBlock : Z) : list Report :=
  match records with
  | [] => []
  | _ => reported (scanBlocks records gap minBlock)
  end.

(** [reportBlock]: what it prints of a block, the average gap apart. *)
Definition spanMs (b : list Rec) : Z :=
  timestamp (last b noRec) - timestamp (hd noRec b).

Definition sampleRkeys (b : list Rec) : list string := map rkey (firstn 5 b).

(** *** The single forward pass in the words of the specification *)

(** Emit the block (kept newest first in [cur]) under the next index
    when it meets the minimum size. *)
Definition emit (minBlockSize next : Z) (cur : list Rec) : list Report :=
  if minBlockSize <=? len cur
  then [{| block := rev cur; index := next |}]
  else [].

(** [pass prev cur next rest]: [prev] is the record before [rest],
    [cur] the block in progress, [next] the index of the next block
    to emit. *)
Fixpoint pass (gapThreshold minBlockSize : Z) (prev : Rec) (cur : list Rec)
         (next : Z) (rest : list Rec) : list Report :=
  match rest with
  | [] => emit minBlockSize next cur
  | r :: rest' =>
      if timestamp r - timestamp prev <=? gapThreshold
      then pass gapThreshold minBlockSize r (r :: cur) next rest'
      else emit minBlockSize next cur
           ++ pass gapThreshold minBlockSize r [r]
                   (if minBlockSize <=? len cur then next + 1 else next) rest'
  end.

Definition singlePass (sortedRecords : list Rec) (gapThreshold minBlockSize : Z)
  : list Report :=
  match sortedRecords with
  | [] => []
  | first :: rest => pass gapThreshold minBlockSize first [first] 1 rest
  end.

Definition at_ (ms : Z) : Rec := {| rkey := EmptyString; timestamp := ms |}.

(** Every record of a block is within the gap of the one before it. *)
Fixpoint gapsWithin (gapMs : Z) (b : list Rec) : bool :=
  match b with
  | x :: (y :: _) as rest =>
      (timestamp y - timestamp x <=? gapMs) && gapsWithin gapMs rest
  | _ => true
  end.

(** *** The command line of analyze.ts *)

Record CliArgs : Type := { gap : Z; minBlock : Z }.

(** [s.slice(n)]. *)
Fixpoint sliceFrom (n : nat) (s : string) : string :=
  match n, s with
  | O, _ => s
  | S n', String _ rest => sliceFrom n' rest
  | S _, EmptyString => EmptyString
  end.

(** The body of [for (const arg of args)] in [parseArgs]; [parseInt]
    gives [None] for [NaN] and the digits read count as the integer
    they spell. *)
Definition parseArg (acc : CliArgs) (arg : string) : run CliArgs :=
  if Deleter.startsWith arg "--gap=" then
    match Deleter.parseInt10 (sliceFrom 6 arg) with
    | None => Exits 1
    | Some g => if g <=? 0 then Exits 1
                else Returns {| gap := g; minBlock := minBlock acc |}
    end
  else if Deleter.startsWith arg "--min-block=" then
    match Deleter.parseInt10 (sliceFrom 12 arg) with
    | None => Exits 1
    | Some m => if m <=? 0 then Exits 1
                else Returns {| gap := gap acc; minBlock := m |}
    end
  else Returns acc.

Fixpoint parseArgsFrom (acc : CliArgs) (args : list string) : run CliArgs :=
  match args with
  | [] => Returns acc
  | arg :: rest =>
      match parseArg acc arg with
      | Exits code => Exits code
      | Returns acc' => parseArgsFrom acc' rest
      end
  end.

(** [parseArgs] on [process.argv.slice(2)]. *)
Definition parseArgs (args : list string) : run CliArgs :=
  parseArgsFrom {| gap := 45; minBlock := 10 |} args.

Definition isOption (arg : string) : bool :=
  Deleter.startsWith arg "--gap=" || Deleter.startsWith arg "--min-block=".

End Analyze.

(** ** search.ts *)

Module Search.

Record CliArgs : Type := {
  artistName : option string;
  albumName : option string;
  trackName : option string;
  count : bool
}.

(** The body of [for (const arg of args)] in [parseArgs]. *)
Definition parseArg (acc : CliArgs) (arg : string) : CliArgs :=
  if Deleter.startsWith arg "--artistName=" then
    {| artistName := Some (Analyze.sliceFrom 13 arg);
       albumName := albumName acc;
       trackName := trackName acc;
       count := count acc |}
  else if Deleter.startsWith arg "--albumName=" then
    {| artistName := artistName acc;
       albumName := Some (Analyze.sliceFrom 12 arg);
       trackName := trackName acc;
       count := count acc |}
  else if Deleter.startsWith arg "--trackName=" then
    {| artistName := artistName acc;
       albumName := albumName acc;
       trackName := Some (Analyze.sliceFrom 12 arg);
       count := count acc |}
  else if String.eqb arg "--count" then
    {| artistName := artistName acc;
       albumName := albumName acc;
       trackName := trackName acc;
       count := true |}
  else acc.

(** An argument that sets one of the three filters. *)
Definition isFilter (arg : string) : bool :=
  Deleter.startsWith arg "--artistName="
  || Deleter.startsWith arg "--albumName="
  || Deleter.startsWith arg "--trackName=".

(** [!name]: no value or the empty string. *)
Definition missing (name : option string) : bool :=
  match name with
  | None => true
  | Some EmptyString => true
  | Some (String _ _) => false
  end.

(** [parseArgs] on [process.argv.slice(2)]. *)
Definition parseArgs (args : list string) : run CliArgs :=
  let parsed :=
    fold_left parseArg args
              {| artistName := None; albumName := None; trackName := None;
                 count := false |} in
  if missing (artistName parsed) && missing (albumName parsed)
     && missing (trackName parsed)
  then Exits 1
  else Returns parsed.

End Search.

(** ** index.ts *)

Module Index.

(** A line of the preview: a record handed to [formatTid], or the count
    of the records left out. *)
Inductive PreviewLine : Type :=
| Shown (rkey : string)
| More (n : Z).

Definition noRef : Records.RecordRef :=
  {| Records.ref_rkey := EmptyString;
     Records.ref_uri := EmptyString;
     Records.createdAt := 0 |}.

(** [records[i].rkey]. *)
Definition rkeyAt (records : list Records.RecordRef) (i : nat) : string :=
  Records.ref_rkey (nth i records noRef).

(** The lines between "Found n records to delete" and the rule below
    them: the first 10 records, then, of more than 15, the count of the
    ones left out and the last 5, and otherwise the rest. *)
Definition preview (records : list Records.RecordRef) : list PreviewLine :=
  let n := List.length records in
  let previewCount := Nat.min n 10 in
  map (fun i => Shown (rkeyAt records i)) (seq 0 previewCount)
  ++ (if (15 <? n)%nat then
        More (Z.of_nat n - 15)
        :: map (fun i => Shown (rkeyAt records i)) (seq (n - 5) 5)
      else if (10 <? n)%nat then
        map (fun i => Shown (rkeyAt records i)) (seq 10 (n - 10))
      else []).

Definition shown (lines : list PreviewLine) : list string :=
  flat_map (fun l => match l with Shown k => [k] | More _ => [] end) lines.

Definition hidden (lines : list PreviewLine) : Z :=
  fold_right (fun l acc => match l with Shown _ => acc | More k => k + acc end)
             0 lines.

(** [process.exit(result.failed > 0 ? 1 : 0)]. *)
Definition exitCode (result : Deleter.Progress) : Z :=
  if 0 <? Deleter.failed result then 1 else 0.

End Index.

(** * Properties *)

(** ** Sorting *)

Lemma insert_perm {A} (cmp : A -> A -> Z) x l :
  Permutation (x :: l) (insert cmp x l).
Proof.
  induction l as [|y l IH]; simpl; [reflexivity|].
  destruct (0 <? cmp x y); [|reflexivity].
  rewrite perm_swap. now apply perm_skip.
Qed.

Lemma sort_perm {A} (cmp : A -> A -> Z) l : Permutation l (sort cmp l).
Proof.
  induction l as [|x l IH]; simpl; [constructor|].
  rewrite <- insert_perm. now apply perm_skip.
Qed.

Lemma sort_In {A} (cmp : A -> A -> Z) x l : In x (sort cmp l) <-> In x l.
Proof.
  split; apply Permutation_in; [symmetry|]; apply sort_perm.
Qed.

(** Two comparators that agree in sign on the elements of a list sort it
    the same way. *)
Lemma insert_agree {A} (c1 c2 : A -> A -> Z) x l :
  (forall y, In y l -> (0 <? c1 x y) = (0 <? c2 x y)) ->
  insert c1 x l = insert c2 x l.
Proof.
  induction l as [|y l IH]; intros H; simpl; [reflexivity|].
  rewrite <- (H y (or_introl eq_refl)).
  destruct (0 <? c1 x y); [|reflexivity].
  f_equal. apply IH. intros z Hz. apply H. now right.
Qed.

Lemma sort_agree {A} (c1 c2 : A -> A -> Z) (key : A -> Z) l :
  NoDup (map key l) ->
  (forall x y, In x l -> In y l -> key x <> key y ->
               (0 <? c1 x y) = (0 <? c2 x y)) ->
  sort c1 l = sort c2 l.
Proof.
  induction l as [|x l IH]; intros Hnd H; simpl; [reflexivity|].
  inversion Hnd as [|k ks Hnotin Hnd']; subst.
  rewrite <- IH.
  - apply insert_agree. intros y Hy. apply sort_In in Hy.
    apply H; [now left | now right |].
    intros Heq. apply Hnotin. rewrite Heq. now apply in_map.
  - assumption.
  - intros a b Ha Hb. apply H; now right.
Qed.

Lemma insert_map {A B} (f : A -> B) (cmp : B -> B -> Z) x l :
  insert cmp (f x) (map f l) = map f (insert (fun a b => cmp (f a) (f b)) x l).
Proof.
  induction l as [|y l IH]; simpl; [reflexivity|].
  destruct (0 <? cmp (f x) (f y)); simpl; [now rewrite IH | reflexivity].
Qed.

Lemma sort_map {A B} (f : A -> B) (cmp : B -> B -> Z) l :
  sort cmp (map f l) = map f (sort (fun a b => cmp (f a) (f b)) l).
Proof.
  induction l as [|x l IH]; simpl; [reflexivity|].
  now rewrite IH, insert_map.
Qed.

(** ** Identifier decoding *)

Import Tid.

Lemma decodeChar_spec (c : ascii) :
  decodeChar c = if in_alphabet c then Ok (symbol_value c)
                 else Throw (InvalidBase32Character c).
Proof.
  destruct c as [[] [] [] [] [] [] [] []]; vm_compute; reflexivity.
Qed.

Lemma symbol_value_range (c : ascii) :
  in_alphabet c = true -> 0 <= symbol_value c < 32.
Proof.
  destruct c as [[] [] [] [] [] [] [] []]; vm_compute; intuition discriminate.
Qed.

(** The digit of a symbol is its place in the alphabet. *)
Lemma symbol_value_place (c : ascii) :
  in_alphabet c = true ->
  String.get (Z.to_nat (symbol_value c)) B32_CHARS = Some (toLowerCase c).
Proof.
  destruct c as [[] [] [] [] [] [] [] []]; vm_compute;
    intros H; try reflexivity; discriminate H.
Qed.

Lemma chars_substring (n : nat) (s : string) :
  chars (substring 0 n s) = firstn n (chars s).
Proof.
  revert s. induction n as [|n IH]; intros [|c s]; simpl; try reflexivity.
  unfold chars in IH. now rewrite IH.
Qed.

Lemma chars_length (s : string) : List.length (chars s) = String.length s.
Proof. induction s; simpl; congruence. Qed.

Lemma big_endian_range (ds : list Z) :
  Forall (fun d => 0 <= d < 32) ds ->
  0 <= big_endian ds < 32 ^ Z.of_nat (List.length ds).
Proof.
  induction 1 as [|d ds Hd _ IH]; simpl big_endian; simpl List.length.
  - simpl. lia.
  - rewrite Nat2Z.inj_succ, Z.pow_succ_r by lia.
    set (p := 32 ^ Z.of_nat (List.length ds)) in *. nia.
Qed.

Lemma decodeLoop_ok (s : string) (acc : Z) :
  forallb in_alphabet (chars s) = true ->
  decodeLoop acc s
  = Ok (acc * 32 ^ Z.of_nat (String.length s)
        + big_endian (map symbol_value (chars s))).
Proof.
  revert acc. induction s as [|c s IH]; intros acc H.
  - simpl. f_equal. lia.
  - simpl in H. apply andb_true_iff in H as [Hc Hs].
    cbn [decodeLoop]. rewrite decodeChar_spec, Hc, (IH _ Hs).
    f_equal. cbn [String.length chars list_ascii_of_string map big_endian].
    fold (chars s). rewrite length_map, chars_length.
    rewrite Nat2Z.inj_succ, Z.pow_succ_r by lia. ring.
Qed.

Lemma decodeLoop_throw (s : string) (acc : Z) :
  forallb in_alphabet (chars s) = false ->
  exists c, decodeLoop acc s = Throw (InvalidBase32Character c)
            /\ In c (chars s) /\ in_alphabet c = false.
Proof.
  revert acc. induction s as [|c s IH]; intros acc H; [discriminate|].
  simpl in H. cbn [decodeLoop]. rewrite decodeChar_spec.
  destruct (in_alphabet c) eqn:Hc.
  - simpl in H. destruct (IH (acc * 32 + symbol_value c) H) as (d & E & I & N).
    exists d. repeat split; [exact E | now right | exact N].
  - exists c. repeat split; [now left | exact Hc].
Qed.

Lemma tidTimestamp_ok (tid : string) :
  (String.length tid =? 13)%nat = true ->
  forallb in_alphabet (firstn 11 (chars tid)) = true ->
  tidTimestamp tid = Ok (encoded_micros tid).
Proof.
  intros Hlen Hall. unfold tidTimestamp. rewrite Hlen. cbn [negb].
  rewrite decodeLoop_ok by now rewrite chars_substring.
  rewrite chars_substring. reflexivity.
Qed.

Lemma encoded_micros_range (tid : string) :
  (String.length tid =? 13)%nat = true ->
  forallb in_alphabet (firstn 11 (chars tid)) = true ->
  0 <= encoded_micros tid < 32 ^ 11.
Proof.
  intros Hlen Hall. unfold encoded_micros.
  assert (L : List.length (map symbol_value (firstn 11 (chars tid))) = 11%nat).
  { rewrite length_map, length_firstn, chars_length.
    apply Nat.eqb_eq in Hlen. rewrite Hlen. reflexivity. }
  pose proof (big_endian_range (map symbol_value (firstn 11 (chars tid)))) as R.
  rewrite L in R. apply R.
  apply Forall_forall. intros d Hd. apply in_map_iff in Hd as (c & <- & Hc).
  apply symbol_value_range.
  rewrite forallb_forall in Hall. now apply Hall.
Qed.

Lemma valid_tid_prefix (tid : string) :
  valid_tid tid = true ->
  (String.length tid =? 13)%nat = true
  /\ forallb in_alphabet (firstn 11 (chars tid)) = true.
Proof.
  unfold valid_tid, all_in_alphabet. intros H.
  apply andb_true_iff in H as [Hlen Hall]. split; [exact Hlen|].
  apply forallb_forall. intros c Hc. rewrite forallb_forall in Hall.
  apply Hall. rewrite <- (firstn_skipn 11 (chars tid)).
  apply in_or_app. now left.
Qed.

Lemma tidToDate_succeeds (tid : string) :
  succeeds (tidToDate tid)
  = (String.length tid =? 13)%nat
    && forallb in_alphabet (firstn 11 (chars tid)).
Proof.
  unfold tidToDate.
  destruct (String.length tid =? 13)%nat eqn:Hlen.
  - destruct (forallb in_alphabet (firstn 11 (chars tid))) eqn:Hall.
    + now rewrite tidTimestamp_ok.
    + unfold tidTimestamp. rewrite Hlen. cbn [negb].
      rewrite <- chars_substring in Hall.
      destruct (decodeLoop_throw _ 0 Hall) as (c & E & _). now rewrite E.
  - unfold tidTimestamp. now rewrite Hlen.
Qed.

(** On strings of code units below 256: [tidToDate] throws exactly when
    the identifier's length is not 13 or one of its first 11 characters
    lies outside the alphabet [234567abcdefghijklmnopqrstuvwxyz]
    (case-insensitive); it throws the length error in the first case and
    the character error, naming a character of the timestamp part that
    is outside the alphabet, in the second.  The last two characters are
    never looked at. *)
Theorem tidToDate_throws_iff (tid : string) :
  (succeeds (tidToDate tid)
   = (String.length tid =? 13)%nat
     && forallb in_alphabet (firstn 11 (chars tid)))
  /\ ((String.length tid =? 13)%nat = false <->
      tidToDate tid = Throw (InvalidTIDLength (String.length tid)))
  /\ ((String.length tid =? 13)%nat
      && negb (forallb in_alphabet (firstn 11 (chars tid))) = true <->
      exists c, tidToDate tid = Throw (InvalidBase32Character c)
                /\ In c (firstn 11 (chars tid)) /\ in_alphabet c = false).
Proof.
  split; [apply tidToDate_succeeds|].
  pose proof (tidToDate_succeeds tid) as S.
  unfold tidToDate, tidTimestamp in *.
  destruct (String.length tid =? 13)%nat eqn:Hlen; cbn [negb andb] in *.
  - destruct (forallb in_alphabet (firstn 11 (chars tid))) eqn:Hall;
      cbn [negb] in *.
    + destruct (decodeLoop 0 (substring 0 11 tid)); [|discriminate S].
      split; split; try discriminate.
      intros (c & E & _). discriminate E.
    + rewrite <- chars_substring in Hall.
      destruct (decodeLoop_throw _ 0 Hall) as (c & E & I & N).
      rewrite E. split; split; try discriminate; intros _; try reflexivity.
      exists c. rewrite <- chars_substring. now repeat split.
  - split; split; try reflexivity; try discriminate.
    intros (c & E & _). discriminate E.
Qed.

(** C1, as stated, fails: thirteen characters of which the last two are
    outside the alphabet decode without an error. *)
Lemma tidToDate_ignores_clock_id_symbols :
  let tid := "22222222222!!" in
  String.length tid = 13%nat
  /\ In "!"%char (chars tid)
  /\ in_alphabet "!"%char = false
  /\ valid_tid tid = false
  /\ tidToDate tid = Ok 0.
Proof. vm_compute. intuition. Qed.

(** C4: a valid identifier decodes to the big-endian base-32 value of its
    first 11 characters, an unsigned number of microseconds below 32^11,
    divided by 1000 with the remainder dropped; the all-"2" identifier
    decodes to the epoch and the last two characters play no part. *)
Theorem tidToDate_valid (tid : string) :
  valid_tid tid = true ->
  tidToDate tid = Ok (encoded_micros tid / 1000)
  /\ 0 <= encoded_micros tid < 32 ^ 11
  /\ (forall i c, (i < 11)%nat -> nth_error (chars tid) i = Some c ->
        String.get (Z.to_nat (symbol_value c)) B32_CHARS = Some (toLowerCase c))
  /\ 1000 * (encoded_micros tid / 1000) <= encoded_micros tid
     < 1000 * (encoded_micros tid / 1000) + 1000
  /\ tidToDate "2222222222222" = Ok 0
  /\ (forall tid', String.length tid' = 13%nat ->
        firstn 11 (chars tid') = firstn 11 (chars tid) ->
        tidToDate tid' = tidToDate tid).
Proof.
  intros Hv. pose proof Hv as Hv'. apply valid_tid_prefix in Hv' as [Hlen Hall].
  pose proof (encoded_micros_range tid Hlen Hall) as R.
  assert (D : tidToDate tid = Ok (encoded_micros tid / 1000)).
  { unfold tidToDate. rewrite (tidTimestamp_ok tid Hlen Hall).
    f_equal. apply Z.quot_div_nonneg; lia. }
  repeat split; try exact D; try lia.
  - intros i c Hi Hc. apply symbol_value_place.
    unfold valid_tid, all_in_alphabet in Hv.
    apply andb_true_iff in Hv as [_ Hv]. rewrite forallb_forall in Hv.
    apply Hv. eapply nth_error_In; eauto.
  - apply Z.mul_div_le; lia.
  - pose proof (Z.mod_pos_bound (encoded_micros tid) 1000 ltac:(lia)).
    pose proof (Z.div_mod (encoded_micros tid) 1000 ltac:(lia)). lia.
  - intros tid' Hlen' Hpre.
    assert (Hl : (String.length tid' =? 13)%nat = true) by now apply Nat.eqb_eq.
    assert (Ha : forallb in_alphabet (firstn 11 (chars tid')) = true)
      by now rewrite Hpre.
    rewrite D. unfold tidToDate. rewrite (tidTimestamp_ok tid' Hl Ha).
    unfold encoded_micros at 1. rewrite Hpre. fold (encoded_micros tid).
    f_equal. apply Z.quot_div_nonneg; lia.
Qed.

Lemma tidToDate_valid_witness :
  tidToDate "3jzfcijpj2z2a" = Ok (encoded_micros "3jzfcijpj2z2a" / 1000)
  /\ tidToDate "2222222222222" = Ok 0.
Proof.
  destruct (tidToDate_valid "3jzfcijpj2z2a" eq_refl) as (D & _ & _ & _ & E & _).
  split; [exact D | exact E].
Defined.

Lemma tidTimestamp_inv (tid : string) (ts : Z) :
  tidTimestamp tid = Ok ts ->
  ts = encoded_micros tid /\ 0 <= ts < 32 ^ 11
  /\ tidToDate tid = Ok (ts / 1000).
Proof.
  intros H. pose proof (tidToDate_succeeds tid) as S.
  unfold tidToDate in S. rewrite H in S. cbn [succeeds] in S.
  symmetry in S. apply andb_true_iff in S as [Hlen Hall].
  rewrite (tidTimestamp_ok tid Hlen Hall) in H. injection H as <-.
  pose proof (encoded_micros_range tid Hlen Hall) as R.
  repeat split; try lia.
  unfold tidToDate. rewrite (tidTimestamp_ok tid Hlen Hall).
  f_equal. apply Z.quot_div_nonneg; lia.
Qed.

(** ** Range selection *)

Import Records.

(** What one scanned entry adds to [matches]. *)
Lemma scanRecord_spec (start end_ : Z) (matches : list RecordRef) (r : Entry) :
  scanRecord start end_ matches r
  = matches ++ (if inRange start end_ r then [refOf r] else []).
Proof.
  unfold scanRecord, inRange, refOf, decodedTime, tidInRange.
  destruct (tidToDate (rkey r)) as [date|e]; [|now rewrite app_nil_r].
  destruct ((start <=? date) && (date <=? end_)); [reflexivity|].
  now rewrite app_nil_r.
Qed.

Lemma scan_spec (start end_ : Z) (entries : list Entry) (acc : list RecordRef) :
  fold_left (scanRecord start end_) entries acc
  = acc ++ map refOf (filter (inRange start end_) entries).
Proof.
  revert acc. induction entries as [|r entries IH]; intros acc; simpl.
  - now rewrite app_nil_r.
  - rewrite IH, scanRecord_spec.
    destruct (inRange start end_ r); simpl.
    + now rewrite <- app_assoc.
    + now rewrite app_nil_r.
Qed.

Lemma selectInRange_spec (entries : list Entry) (start end_ : Z) :
  selectInRange entries start end_
  = sort byCreatedAt (map refOf (filter (inRange start end_) entries)).
Proof. unfold selectInRange. now rewrite scan_spec. Qed.

Lemma selectInRange_In (entries : list Entry) (start end_ : Z) (ref : RecordRef) :
  In ref (selectInRange entries start end_)
  <-> exists r, In r entries /\ inRange start end_ r = true /\ ref = refOf r.
Proof.
  rewrite selectInRange_spec, sort_In, in_map_iff. split.
  - intros (r & <- & Hr). apply filter_In in Hr as [Hin Hr]. now exists r.
  - intros (r & Hin & Hr & ->). exists r. split; [reflexivity|].
    now apply filter_In.
Qed.

(** C2, as amended: with bounds [start <= end_] the selection compares the
    decoded time, the encoded microseconds cut down to whole milliseconds.
    A record is selected exactly when [start <= ts / 1000 <= end_]; so one
    whose decoded time is the start or the end bound is included, one
    encoded a microsecond before the start bound is excluded, one encoded
    up to 999 microseconds after the end bound is still included, and one
    encoded a millisecond or more after it is excluded. *)
Theorem selectInRange_inclusive
        (entries : list Entry) (record : Entry) (ts start end_ : Z) :
  In record entries ->
  tidTimestamp (rkey record) = Ok ts ->
  start <= end_ ->
  let selected :=
    In {| ref_rkey := rkey record; ref_uri := uri record;
          createdAt := ts / 1000 |}
       (selectInRange entries start end_) in
  tidInRange (rkey record) start end_
  = Ok ((start <=? ts / 1000) && (ts / 1000 <=? end_))
  /\ (selected <-> start <= ts / 1000 <= end_)
  /\ (ts / 1000 = start \/ ts / 1000 = end_ -> selected)
  /\ (ts = start * 1000 - 1 -> ~ selected)
  /\ (end_ * 1000 <= ts <= end_ * 1000 + 999 -> selected)
  /\ (end_ * 1000 + 1000 <= ts -> ~ selected).
Proof.
  intros Hin Hts Hle selected.
  destruct (tidTimestamp_inv _ _ Hts) as (_ & Hrange & Hdate).
  assert (Hr : tidInRange (rkey record) start end_
               = Ok ((start <=? ts / 1000) && (ts / 1000 <=? end_)))
    by (unfold tidInRange; now rewrite Hdate).
  assert (Href : refOf record
                 = {| ref_rkey := rkey record; ref_uri := uri record;
                      createdAt := ts / 1000 |})
    by (unfold refOf, decodedTime; now rewrite Hdate).
  assert (Hsel : selected <-> start <= ts / 1000 <= end_).
  { unfold selected. rewrite selectInRange_In. split.
    - intros (r & _ & Hr' & Heq).
      assert (Hk : rkey r = rkey record)
        by (apply (f_equal ref_rkey) in Heq; symmetry; exact Heq).
      unfold inRange in Hr'. rewrite Hk, Hr in Hr'.
      apply andb_true_iff in Hr' as [H1 H2]. lia.
    - intros Hb. exists record. repeat split; [exact Hin | | now symmetry].
      unfold inRange. rewrite Hr. apply andb_true_iff. lia. }
  split; [exact Hr|]. split; [exact Hsel|].
  assert (Hlo : 1000 * (ts / 1000) <= ts) by (apply Z.mul_div_le; lia).
  assert (Hhi : ts < 1000 * (ts / 1000) + 1000).
  { pose proof (Z.mod_pos_bound ts 1000 ltac:(lia)).
    pose proof (Z.div_mod ts 1000 ltac:(lia)). lia. }
  repeat split; rewrite Hsel; intros; lia.
Qed.

Lemma selectInRange_inclusive_witness :
  let e := entryOf "at://did:plc:me/fm.teal.alpha.feed.play/3jzfcijpj2z2a" in
  In {| ref_rkey := rkey e; ref_uri := uri e; createdAt := 1688137381887 |}
     (selectInRange [e] 1688137381887 1688137381887).
Proof.
  intros e.
  assert (T : tidTimestamp (rkey e) = Ok 1688137381887007) by reflexivity.
  destruct (selectInRange_inclusive [e] e 1688137381887007
              1688137381887 1688137381887
              (or_introl eq_refl) T ltac:(lia)) as (_ & _ & H & _).
  apply H. left. reflexivity.
Defined.

(** C2, as stated, fails at the end bound: an identifier encoding one
    microsecond past the end bound still decodes to the bound and is
    selected. *)
Lemma selectInRange_keeps_microsecond_after_end :
  let e := entryOf "at://did:plc:me/fm.teal.alpha.feed.play/2222222222322" in
  let end_ := 0 in
  tidTimestamp (rkey e) = Ok (end_ * 1000 + 1)
  /\ tidInRange (rkey e) 0 end_ = Ok true
  /\ selectInRange [e] 0 end_
     = [{| ref_rkey := rkey e; ref_uri := uri e; createdAt := 0 |}].
Proof. vm_compute. intuition. Qed.

(** ** Sortable encoding *)

Lemma canonical_value (c : ascii) :
  canonical c = true ->
  let n := Z.of_N (N_of_ascii c) in
  (50 <= n <= 55 /\ symbol_value c = n - 50)
  \/ (97 <= n <= 122 /\ symbol_value c = n - 91).
Proof.
  intros H. cbv zeta. unfold canonical in H. unfold symbol_value.
  set (n := Z.of_N (N_of_ascii c)).
  assert (Hn : Z.of_N (N_of_ascii c) = n) by reflexivity. clearbody n.
  apply orb_true_iff in H as [H|H];
    apply andb_true_iff in H as [H1 H2];
    apply N.leb_le in H1, H2; [left|right]; (split; [lia|]).
  - destruct (Z.leb_spec n 55); lia.
  - destruct (Z.leb_spec n 55); [lia|]. destruct (Z.leb_spec n 90); lia.
Qed.

Lemma canonical_in_alphabet (c : ascii) :
  canonical c = true -> in_alphabet c = true.
Proof.
  unfold canonical, in_alphabet. intros ->. reflexivity.
Qed.

(** On the symbols as written, code-unit order is digit order. *)
Lemma canonical_compare (c d : ascii) :
  canonical c = true -> canonical d = true ->
  Ascii.compare c d = (symbol_value c ?= symbol_value d).
Proof.
  intros Hc Hd. unfold Ascii.compare.
  rewrite <- (N2Z.inj_compare (N_of_ascii c) (N_of_ascii d)).
  pose proof (canonical_value c Hc) as Vc.
  pose proof (canonical_value d Hd) as Vd. cbv zeta in Vc, Vd.
  destruct (Z.compare_spec (Z.of_N (N_of_ascii c)) (Z.of_N (N_of_ascii d)));
    symmetry;
    [apply Z.compare_eq_iff | apply Z.compare_lt_iff | apply Z.compare_gt_iff];
    lia.
Qed.

Lemma big_endian_app (ds es : list Z) :
  big_endian (ds ++ es)
  = big_endian ds * 32 ^ Z.of_nat (List.length es) + big_endian es.
Proof.
  induction ds as [|d ds IH]; simpl big_endian; [lia|].
  rewrite IH, length_app, Nat2Z.inj_add, Z.pow_add_r by lia. ring.
Qed.

Lemma digitsOf_range (s : string) :
  forallb canonical (chars s) = true ->
  Forall (fun d => 0 <= d < 32) (digitsOf s).
Proof.
  intros H. apply Forall_forall. intros d Hd.
  apply in_map_iff in Hd as (c & <- & Hc).
  apply symbol_value_range, canonical_in_alphabet.
  rewrite forallb_forall in H. now apply H.
Qed.

(** Base32-sortable: strings of equal length over the alphabet compare as
    the numbers they spell. *)
Lemma compare_big_endian (s t : string) :
  String.length s = String.length t ->
  forallb canonical (chars s) = true ->
  forallb canonical (chars t) = true ->
  String.compare s t = (big_endian (digitsOf s) ?= big_endian (digitsOf t)).
Proof.
  revert t. induction s as [|c s IH]; intros [|d t] Hlen Hs Ht;
    try discriminate Hlen; [reflexivity|].
  simpl in Hs, Ht.
  apply andb_true_iff in Hs as [Hc Hs]. apply andb_true_iff in Ht as [Hd Ht].
  injection Hlen as Hlen.
  pose proof (big_endian_range _ (digitsOf_range s Hs)) as Rs.
  pose proof (big_endian_range _ (digitsOf_range t Ht)) as Rt.
  pose proof (symbol_value_range c (canonical_in_alphabet c Hc)) as Rc.
  pose proof (symbol_value_range d (canonical_in_alphabet d Hd)) as Rd.
  cbn [String.compare]. rewrite (canonical_compare c d Hc Hd).
  unfold digitsOf in *. cbn [chars list_ascii_of_string map big_endian].
  fold (chars s) (chars t).
  rewrite !length_map, !chars_length in *. rewrite <- Hlen in *.
  set (P := 32 ^ Z.of_nat (String.length s)) in *.
  set (x := big_endian (map symbol_value (chars s))) in *.
  set (y := big_endian (map symbol_value (chars t))) in *.
  destruct (Z.compare_spec (symbol_value c) (symbol_value d)) as [E|L|G].
  - rewrite E, (IH t Hlen Hs Ht). fold x y.
    destruct (Z.compare_spec x y); symmetry;
      [apply Z.compare_eq_iff | apply Z.compare_lt_iff | apply Z.compare_gt_iff];
      lia.
  - symmetry. apply Z.compare_lt_iff. nia.
  - symmetry. apply Z.compare_gt_iff. nia.
Qed.

Lemma canonical_tid_inv (tid : string) :
  canonical_tid tid = true ->
  String.length tid = 13%nat
  /\ forallb canonical (chars tid) = true
  /\ tidToDate tid = Ok (encoded_micros tid / 1000)
  /\ exists low, 0 <= low < 32 ^ 2
                 /\ big_endian (digitsOf tid) = encoded_micros tid * 32 ^ 2 + low.
Proof.
  unfold canonical_tid. intros H. apply andb_true_iff in H as [Hlen Hall].
  assert (Hv : valid_tid tid = true).
  { unfold valid_tid, all_in_alphabet. rewrite Hlen. cbn [andb].
    apply forallb_forall. intros c Hc. apply canonical_in_alphabet.
    rewrite forallb_forall in Hall. now apply Hall. }
  assert (D : tidToDate tid = Ok (encoded_micros tid / 1000)).
  { destruct (valid_tid_prefix tid Hv) as [Hl Hp].
    destruct (tidTimestamp_inv tid _ (tidTimestamp_ok tid Hl Hp)) as (_ & _ & D).
    exact D. }
  apply Nat.eqb_eq in Hlen.
  repeat split; try assumption.
  exists (big_endian (map symbol_value (skipn 11 (chars tid)))).
  assert (L : List.length (map symbol_value (skipn 11 (chars tid))) = 2%nat)
    by (rewrite length_map, length_skipn, chars_length, Hlen; reflexivity).
  split.
  - assert (F : Forall (fun d => 0 <= d < 32)
                       (map symbol_value (skipn 11 (chars tid)))).
    { apply Forall_forall. intros d Hd. apply in_map_iff in Hd as (c & <- & Hc).
      apply symbol_value_range, canonical_in_alphabet.
      rewrite forallb_forall in Hall. apply Hall.
      rewrite <- (firstn_skipn 11 (chars tid)). apply in_or_app. now right. }
    pose proof (big_endian_range _ F) as R. rewrite L in R. exact R.
  - unfold digitsOf, encoded_micros.
    rewrite <- (firstn_skipn 11 (chars tid)) at 1.
    rewrite map_app, big_endian_app, L. reflexivity.
Qed.

(** Identifiers as written with different decoded times: the difference
    of the times and the lexicographic comparison have the same sign. *)
Lemma byCreatedAt_lexCompare (a b : Entry) :
  canonical_tid (rkey a) = true ->
  canonical_tid (rkey b) = true ->
  decodedTime a <> decodedTime b ->
  (0 <? byCreatedAt (refOf a) (refOf b))
  = (0 <? lexCompare (rkey a) (rkey b)).
Proof.
  intros Ha Hb Hne.
  destruct (canonical_tid_inv _ Ha) as (La & Ca & Da & la & Rla & Va).
  destruct (canonical_tid_inv _ Hb) as (Lb & Cb & Db & lb & Rlb & Vb).
  unfold byCreatedAt, refOf, decodedTime, lexCompare in *. cbn [createdAt].
  rewrite Da, Db in *.
  rewrite (compare_big_endian (rkey a) (rkey b)) by congruence.
  rewrite Va, Vb.
  set (ea := encoded_micros (rkey a)) in *.
  set (eb := encoded_micros (rkey b)) in *.
  assert (Hcases : ea / 1000 < eb / 1000 \/ eb / 1000 < ea / 1000) by lia.
  destruct Hcases as [H|H].
  - assert (ea < eb).
    { destruct (Z.lt_ge_cases ea eb) as [|G]; [assumption|].
      apply (Z.div_le_mono _ _ 1000) in G; lia. }
    replace (ea * 32 ^ 2 + la ?= eb * 32 ^ 2 + lb) with Lt
      by (symmetry; apply Z.compare_lt_iff; lia).
    destruct (Z.ltb_spec 0 (ea / 1000 - eb / 1000)); [lia | reflexivity].
  - assert (eb < ea).
    { destruct (Z.lt_ge_cases eb ea) as [|G]; [assumption|].
      apply (Z.div_le_mono _ _ 1000) in G; lia. }
    replace (ea * 32 ^ 2 + la ?= eb * 32 ^ 2 + lb) with Gt
      by (symmetry; apply Z.compare_gt_iff; lia).
    destruct (Z.ltb_spec 0 (ea / 1000 - eb / 1000)); [reflexivity | lia].
Qed.

Lemma distinct_NoDup (l : list Z) : distinct l = true -> NoDup l.
Proof.
  induction l as [|x l IH]; simpl; intros H; [constructor|].
  apply andb_true_iff in H as [Hx Hl]. constructor; [|auto].
  intros Hin. apply negb_true_iff in Hx.
  assert (E : existsb (Z.eqb x) l = true)
    by (apply existsb_exists; exists x; split; [assumption | apply Z.eqb_refl]).
  congruence.
Qed.

Lemma NoDup_map_filter {A} (f : A -> Z) (p : A -> bool) (l : list A) :
  NoDup (map f l) -> NoDup (map f (filter p l)).
Proof.
  induction l as [|x l IH]; simpl; intros H; [constructor|].
  inversion H as [|k ks Hnotin Hnd]; subst.
  destruct (p x); simpl; [|auto].
  constructor; [|auto]. intros Hin. apply Hnotin.
  apply in_map_iff in Hin as (y & Hy & Hin). apply filter_In in Hin as [Hin _].
  rewrite <- Hy. now apply in_map.
Qed.

(** C5, as amended: for entries whose identifiers are written in the
    alphabet's own lower-case symbols and whose decoded millisecond times
    are pairwise different, the selection, sorted by decoded time, lists
    the selected identifiers in lexicographic order. *)
Theorem selectInRange_lexicographic
        (entries : list Entry) (start end_ : Z) :
  forallb (fun r => canonical_tid (rkey r)) entries = true ->
  distinct (map decodedTime entries) = true ->
  map ref_rkey (selectInRange entries start end_)
  = lexSort (map rkey (filter (inRange start end_) entries)).
Proof.
  intros Hcanon Hdist. rewrite selectInRange_spec.
  unfold lexSort. rewrite !sort_map, map_map. cbn [refOf ref_rkey].
  f_equal. apply (sort_agree _ _ decodedTime).
  - apply NoDup_map_filter, distinct_NoDup, Hdist.
  - intros a b Ha Hb Hne.
    apply filter_In in Ha as [Ha _]. apply filter_In in Hb as [Hb _].
    rewrite forallb_forall in Hcanon.
    apply byCreatedAt_lexCompare; auto.
Qed.

Lemma selectInRange_lexicographic_witness :
  let entries := map entryOf ["at://me/play/3jzfcijpj2z2a";
                              "at://me/play/3jzfcihpj2z22";
                              "at://me/play/3l2222222222z"] in
  map ref_rkey (selectInRange entries 0 1700000000000)
  = ["3jzfcihpj2z22"; "3jzfcijpj2z2a"].
Proof.
  intros entries.
  rewrite (selectInRange_lexicographic entries 0 1700000000000
             eq_refl eq_refl).
  reflexivity.
Defined.

(** C5, as stated, fails: two valid identifiers with different encoded
    microseconds within one millisecond decode to the same time, and the
    sort by decoded time leaves them in scan order. *)
Lemma sort_by_time_not_lexicographic :
  let tids := ["2222222222322"; "2222222222222"] in
  let entries := map (fun t => {| uri := t; rkey := t |}) tids in
  forallb valid_tid tids = true
  /\ map tidTimestamp tids = [Ok 1; Ok 0]
  /\ map ref_rkey (selectInRange entries 0 0) = tids
  /\ lexSort tids = ["2222222222222"; "2222222222322"].
Proof. vm_compute. intuition. Qed.

(** Validity is case-insensitive but the lexicographic order is not: an
    upper-case identifier sorts before a lower-case one it decodes
    after. *)
Lemma upper_case_breaks_sortability :
  let tids := ["22222222a2222"; "22222222B2222"] in
  let entries := map (fun t => {| uri := t; rkey := t |}) tids in
  forallb valid_tid tids = true
  /\ map tidToDate tids = [Ok 6; Ok 7]
  /\ map ref_rkey (selectInRange entries 0 10) = tids
  /\ lexSort tids = ["22222222B2222"; "22222222a2222"].
Proof. vm_compute. intuition. Qed.

(** ** Paged listing *)

Lemma responseAt_unfold (svc : ListService) (n : nat) :
  responseAt svc n = svc n (cursorSent svc n).
Proof. destruct n; reflexivity. Qed.

(** From request [k] on, [m] full pages with a cursor and then a last
    page: the loop returns after that page, whatever fuel is left. *)
Lemma listAllRecords_from_spec (svc : ListService) (m : nat) :
  forall k fuel,
    (forall j, (k <= j < k + m)%nat -> lastPage (responseAt svc j) = false) ->
    lastPage (responseAt svc (k + m)) = true ->
    (m < fuel)%nat ->
    listAllRecords_from fuel svc k (cursorSent svc k)
    = Some {| yielded := entriesOfPages svc k (S m);
              requests := S (k + m) |}.
Proof.
  induction m as [|m IH]; intros k fuel Hfull Hlast Hfuel;
    (destruct fuel as [|fuel]; [lia|]);
    cbn [listAllRecords_from]; rewrite <- responseAt_unfold.
  - rewrite Nat.add_0_r in *. unfold lastPage, shortPage in Hlast.
    rewrite Hlast. unfold entriesOfPages. simpl. now rewrite app_nil_r.
  - assert (Hk : lastPage (responseAt svc k) = false) by (apply Hfull; lia).
    unfold lastPage, shortPage in Hk. rewrite Hk.
    change (cursor (responseAt svc k)) with (cursorSent svc (S k)).
    rewrite (IH (S k) fuel).
    + unfold entriesOfPages. cbn [seq flat_map yielded requests].
      now replace (S k + m)%nat with (k + S m)%nat by lia.
    + intros j Hj. apply Hfull. lia.
    + now replace (S k + m)%nat with (k + S m)%nat by lia.
    + lia.
Qed.

(** ** Block detection *)

Import Analyze.

Lemma reportIfLarge_emit (minBlock : Z) (s : Scan) :
  reported (reportIfLarge minBlock s)
  = reported s ++ emit minBlock (blockIndex s) (rev (currentBlock s)).
Proof.
  unfold reportIfLarge, emit, len. rewrite length_rev, rev_involutive.
  destruct (minBlock <=? Z.of_nat (List.length (currentBlock s)));
    cbn [reported]; [reflexivity | now rewrite app_nil_r].
Qed.

Lemma nth_middle_next {A} (pre : list A) (x y : A) (rest : list A) (d : A) :
  nth (S (List.length pre)) (pre ++ x :: y :: rest) d = y.
Proof.
  replace (pre ++ x :: y :: rest) with ((pre ++ [x]) ++ y :: rest)
    by (now rewrite <- app_assoc).
  replace (S (List.length pre)) with (List.length (pre ++ [x]))
    by (rewrite length_app; simpl; lia).
  apply nth_middle.
Qed.

(** The indexed loop, started after [pre ++ [prev]], reports what the
    pass over the remaining records emits. *)
Lemma scan_pass (gapMs minBlock : Z) (rest : list Rec) :
  forall (pre : list Rec) (prev : Rec) (s : Scan),
    reported
      (reportIfLarge minBlock
         (fold_left (scanStep (pre ++ prev :: rest) gapMs minBlock)
                    (seq (S (List.length pre)) (List.length rest)) s))
    = reported s
      ++ pass gapMs minBlock prev (rev (currentBlock s)) (blockIndex s) rest.
Proof.
  induction rest as [|r rest IH]; intros pre prev s.
  - cbn [List.length seq fold_left pass]. apply reportIfLarge_emit.
  - cbn [List.length seq fold_left pass].
    assert (Hstep : forall s1,
      reported
        (reportIfLarge minBlock
           (fold_left (scanStep (pre ++ prev :: r :: rest) gapMs minBlock)
                      (seq (S (S (List.length pre))) (List.length rest)) s1))
      = reported s1
        ++ pass gapMs minBlock r (rev (currentBlock s1)) (blockIndex s1) rest).
    { intros s1. specialize (IH (pre ++ [prev]) r s1).
      rewrite <- app_assoc in IH. cbn [app] in IH.
      rewrite length_app in IH. cbn [List.length] in IH.
      rewrite Nat.add_1_r in IH. exact IH. }
    rewrite Hstep. unfold scanStep.
    rewrite nth_middle_next.
    replace (S (List.length pre) - 1)%nat with (List.length pre) by lia.
    rewrite nth_middle.
    destruct (timestamp r - timestamp prev <=? gapMs).
    + cbn [reported currentBlock blockIndex]. rewrite rev_app_distr.
      reflexivity.
    + cbn [reported currentBlock blockIndex rev app].
      rewrite reportIfLarge_emit, <- app_assoc. f_equal. f_equal.
      unfold reportIfLarge, len. rewrite length_rev.
      destruct (minBlock <=? Z.of_nat (List.length (currentBlock s)));
        reflexivity.
Qed.

Lemma findBlocks_singlePass (records : list Rec) (gap minBlock : Z) :
  findBlocks records gap minBlock = singlePass records (gap * 1000) minBlock.
Proof.
  destruct records as [|first rest]; [reflexivity|].
  unfold findBlocks, scanBlocks, singlePass.
  replace (List.length (first :: rest) - 1)%nat with (List.length rest)
    by (simpl; lia).
  cbn [nth].
  apply (scan_pass (gap * 1000) minBlock rest [] first).
Qed.

(** Every emitted block has at least the minimum size. *)
Lemma pass_sizes (g m : Z) (rest : list Rec) :
  forall prev cur next,
    Forall (fun b => m <= len (block b)) (pass g m prev cur next rest).
Proof.
  assert (E : forall next cur, Forall (fun b => m <= len (block b))
                                      (emit m next cur)).
  { intros next cur. unfold emit.
    destruct (Z.leb_spec m (len cur)); constructor; [|constructor].
    cbn [block]. unfold len in *. rewrite length_rev. assumption. }
  induction rest as [|r rest IH]; intros prev cur next; cbn [pass]; [apply E|].
  destruct (timestamp r - timestamp prev <=? g); [apply IH|].
  apply Forall_app. split; [apply E | apply IH].
Qed.

(** Emitted blocks are numbered [next], [next + 1], .. in order. *)
Lemma pass_indices (g m : Z) (rest : list Rec) :
  forall prev cur next,
    map index (pass g m prev cur next rest)
    = map (fun k => next + Z.of_nat k)
          (seq 0 (List.length (pass g m prev cur next rest))).
Proof.
  induction rest as [|r rest IH]; intros prev cur next; cbn [pass].
  - unfold emit. destruct (m <=? len cur); simpl; [f_equal; lia | reflexivity].
  - destruct (timestamp r - timestamp prev <=? g); [apply IH|].
    unfold emit. destruct (m <=? len cur); cbn [app map List.length seq].
    + rewrite IH, <- seq_shift, map_map. f_equal; [simpl; lia|].
      apply map_ext. intros k. lia.
    + apply IH.
Qed.

(** C6: the block scan of [main] is the single forward pass: a record
    within the gap of its predecessor joins the current block; otherwise
    the current block is emitted if it has the minimum size, under the
    next index counted from 1, and the record starts a new block; the
    block left at the end is emitted on the same condition.  On the
    times 0, 10, 20, 90, 95, 100 s with a gap of 45 s it finds the two
    blocks of three for a minimum size of 2 and none for 4. *)
Theorem findBlocks_single_pass :
  (forall records gap minBlock,
     findBlocks records gap minBlock
     = singlePass records (gap * 1000) minBlock
     /\ Forall (fun b => minBlock <= len (block b))
               (findBlocks records gap minBlock)
     /\ map index (findBlocks records gap minBlock)
        = map (fun k => 1 + Z.of_nat k)
              (seq 0 (List.length (findBlocks records gap minBlock))))
  /\ findBlocks (map at_ [0; 10000; 20000; 90000; 95000; 100000]) 45 2
     = [{| block := map at_ [0; 10000; 20000]; index := 1 |};
        {| block := map at_ [90000; 95000; 100000]; index := 2 |}]
  /\ findBlocks (map at_ [0; 10000; 20000; 90000; 95000; 100000]) 45 4 = [].
Proof.
  split; [|split; reflexivity].
  intros records gap minBlock. rewrite findBlocks_singlePass.
  split; [reflexivity|].
  destruct records as [|first rest]; cbn [singlePass].
  - split; [constructor | reflexivity].
  - split; [apply pass_sizes | apply pass_indices].
Qed.

(** ** Deletion *)

Import Deleter.

Lemma attemptsFrom_start : attemptsFrom 0 = [0; 1; 2].
Proof. reflexivity. Qed.

Lemma deleteOne_unfold (remote : DeleteService) (p : Progress)
      (rkey : string) (w : World) :
  deleteOne remote p rkey w
  = let e := enforceRateLimit (rateLimit p) w in
    let d := deleteWithRetry remote rkey (snd e) in
    (tally p (fst e) rkey (fst d), snd (sleep (Some 50) (snd d))).
Proof.
  unfold deleteOne, bind. cbv zeta.
  destruct (enforceRateLimit (rateLimit p) w) as [rl w1]. cbn [fst snd].
  destruct (deleteWithRetry remote rkey w1) as [r w2]. reflexivity.
Qed.

Lemma deleteLoop_cons (remote : DeleteService) (p : Progress)
      (rkey : string) (rest : list string) (w : World) :
  deleteLoop remote p (rkey :: rest) w
  = deleteLoop remote (fst (deleteOne remote p rkey w)) rest
               (snd (deleteOne remote p rkey w)).
Proof.
  cbn [deleteLoop]. unfold bind.
  destruct (deleteOne remote p rkey w); reflexivity.
Qed.

Lemma deleteLoop_app (remote : DeleteService) (l1 l2 : list string) :
  forall p w,
    deleteLoop remote p (l1 ++ l2) w
    = deleteLoop remote (fst (deleteLoop remote p l1 w)) l2
                 (snd (deleteLoop remote p l1 w)).
Proof.
  induction l1 as [|r l1 IH]; intros p w; [reflexivity|].
  rewrite <- app_comm_cons, !deleteLoop_cons. apply IH.
Qed.

(** What [enforceRateLimit] does, case by case. *)
Lemma enforceRateLimit_cases (st : RateLimitState) (w : World) :
  (HOUR_MS <= clock w - windowStart st ->
   enforceRateLimit st w
   = ({| deletionsThisWindow := 0; windowStart := clock w |}, w))
  /\ (clock w - windowStart st < HOUR_MS ->
      deletionsThisWindow st < MAX_DELETIONS_PER_HOUR ->
      enforceRateLimit st w = (st, w))
  /\ (clock w - windowStart st < HOUR_MS ->
      MAX_DELETIONS_PER_HOUR <= deletionsThisWindow st ->
      let ms := HOUR_MS - (clock w - windowStart st) + 1000 in
      let w' := snd (sleep (Some ms) w) in
      enforceRateLimit st w
      = ({| deletionsThisWindow := 0; windowStart := clock w' |}, w')
        /\ trace w' = EvSleep (Some ms) :: trace w
        /\ (0 <= clock w - windowStart st ->
            clock w' = windowStart st + HOUR_MS + 1000)).
Proof.
  unfold enforceRateLimit, bind, Date_now, ret.
  repeat split.
  - intros H. destruct (Z.leb_spec HOUR_MS (clock w - windowStart st)); [|lia].
    reflexivity.
  - intros H Hc.
    destruct (Z.leb_spec HOUR_MS (clock w - windowStart st)); [lia|].
    destruct (Z.leb_spec MAX_DELETIONS_PER_HOUR (deletionsThisWindow st));
      [lia | reflexivity].
  - destruct (Z.leb_spec HOUR_MS (clock w - windowStart st)); [lia|].
    destruct (Z.leb_spec MAX_DELETIONS_PER_HOUR (deletionsThisWindow st));
      [reflexivity | lia].
  - intros Hpos. cbn [sleep snd clock]. unfold timerDelay.
    assert (B : (1 <=? HOUR_MS - (clock w - windowStart st) + 1000)
                && (HOUR_MS - (clock w - windowStart st) + 1000 <=? TIMEOUT_MAX)
                = true).
    { apply andb_true_iff. unfold HOUR_MS, TIMEOUT_MAX in *.
      split; apply Z.leb_le; lia. }
    rewrite B. lia.
Qed.

Lemma enforceRateLimit_requests (st : RateLimitState) (w : World) :
  requests (snd (enforceRateLimit st w)) = requests w.
Proof.
  unfold enforceRateLimit, bind, Date_now, ret.
  destruct (HOUR_MS <=? clock w - windowStart st); cbn [deletionsThisWindow];
    destruct (MAX_DELETIONS_PER_HOUR <=? _); reflexivity.
Qed.

(** After the quota check there is room for one more deletion. *)
Lemma enforceRateLimit_below (st : RateLimitState) (w : World) :
  deletionsThisWindow (fst (enforceRateLimit st w)) < MAX_DELETIONS_PER_HOUR.
Proof.
  unfold enforceRateLimit, bind, Date_now, ret.
  destruct (HOUR_MS <=? clock w - windowStart st); cbn [deletionsThisWindow].
  - reflexivity.
  - destruct (Z.leb_spec MAX_DELETIONS_PER_HOUR (deletionsThisWindow st));
      cbn [fst deletionsThisWindow]; [reflexivity | assumption].
Qed.

Lemma deleteOne_count (remote : DeleteService) (p : Progress)
      (rkey : string) (w : World) :
  deletionsThisWindow (rateLimit (fst (deleteOne remote p rkey w)))
  <= MAX_DELETIONS_PER_HOUR.
Proof.
  rewrite deleteOne_unfold. cbv zeta. cbn [fst].
  pose proof (enforceRateLimit_below (rateLimit p) w) as B.
  destruct (fst (deleteWithRetry remote rkey
                   (snd (enforceRateLimit (rateLimit p) w))));
    cbn [tally rateLimit deletionsThisWindow]; lia.
Qed.

Lemma deleteLoop_count (remote : DeleteService) (rkeys : list string) :
  forall p w,
    deletionsThisWindow (rateLimit p) <= MAX_DELETIONS_PER_HOUR ->
    deletionsThisWindow (rateLimit (fst (deleteLoop remote p rkeys w)))
    <= MAX_DELETIONS_PER_HOUR.
Proof.
  induction rkeys as [|r rkeys IH]; intros p w H; [exact H|].
  rewrite deleteLoop_cons. apply IH, deleteOne_count.
Qed.

(** A first answer that is a success ends [deleteWithRetry] at once. *)
Lemma deleteAttempts_success (remote : DeleteService) (attempt : Z)
      (later : list Z) (lastError : option RemoteError) (rkey : string)
      (w : World) :
  outcome (remote (requests w)) = None ->
  deleteAttempts remote (attempt :: later) lastError rkey w
  = (Ok tt, snd (deleteRecord remote rkey w)).
Proof.
  intros H. cbn [deleteAttempts]. unfold bind, deleteRecord. now rewrite H.
Qed.

(** A first answer that is a not-found error does the same. *)
Lemma deleteAttempts_not_found (remote : DeleteService) (attempt : Z)
      (later : list Z) (lastError : option RemoteError) (rkey : string)
      (w : World) (err : RemoteError) (m : string) :
  outcome (remote (requests w)) = Some err ->
  status err = Some 400 ->
  message err = Some m ->
  includes m "not found" = true ->
  deleteAttempts remote (attempt :: later) lastError rkey w
  = (Ok tt, snd (deleteRecord remote rkey w)).
Proof.
  intros H Hs Hm Hi. cbn [deleteAttempts]. unfold bind, deleteRecord.
  rewrite H. unfold isRateLimited, isNotFound. rewrite Hs, Hm, Hi.
  reflexivity.
Qed.


Lemma deleteRecord_requests (remote : DeleteService) (rkey : string) (w : World) :
  requests (snd (deleteRecord remote rkey w)) = S (requests w).
Proof. reflexivity. Qed.







(** One turn on a record that is deleted at once, with quota left and
    the window still open. *)
Lemma deleteOne_instant (p : Progress) (rkey : string) (w : World) :
  deletionsThisWindow (rateLimit p) < MAX_DELETIONS_PER_HOUR ->
  clock w - windowStart (rateLimit p) < HOUR_MS ->
  deleteOne instant p rkey w
  = ({| rateLimit :=
          {| deletionsThisWindow := deletionsThisWindow (rateLimit p) + 1;
             windowStart := windowStart (rateLimit p) |};
        deleted := deleted p + 1;
        failed := failed p;
        errors := errors p |},
     {| clock := clock w + 0 + 50;
        requests := S (requests w);
        trace := EvSleep (Some 50) :: EvDeleteRecord rkey (clock w) :: trace w |}).
Proof.
  intros Hc He. rewrite deleteOne_unfold.
  destruct (enforceRateLimit_cases (rateLimit p) w) as (_ & Idle & _).
  rewrite (Idle He Hc). reflexivity.
Qed.

Lemma deleteLoop_instant (rkeys : list string) :
  forall p w,
    let n := Z.of_nat (List.length rkeys) in
    deletionsThisWindow (rateLimit p) + n <= MAX_DELETIONS_PER_HOUR ->
    clock w - windowStart (rateLimit p) + 50 * n <= HOUR_MS ->
    let r := deleteLoop instant p rkeys w in
    rateLimit (fst r)
    = {| deletionsThisWindow := deletionsThisWindow (rateLimit p) + n;
         windowStart := windowStart (rateLimit p) |}
    /\ deleted (fst r) = deleted p + n
    /\ failed (fst r) = failed p
    /\ errors (fst r) = errors p
    /\ clock (snd r) = clock w + 50 * n
    /\ deleteTimes (trace (snd r))
       = deleteTimes (trace w)
         ++ map (fun k => clock w + 50 * Z.of_nat k) (seq 0 (List.length rkeys)).
Proof.
  induction rkeys as [|rkey rkeys IH]; intros p w n Hq Ht r.
  - subst r n. cbn [deleteLoop ret fst snd List.length seq map].
    rewrite app_nil_r, !Z.add_0_r.
    destruct p as [[c ws] d f e]. repeat split; cbn; lia.
  - subst r. rewrite deleteLoop_cons.
    assert (Hn : n = Z.of_nat (List.length rkeys) + 1)
      by (subst n; cbn [List.length]; lia).
    rewrite deleteOne_instant by lia. cbn [fst snd].
    match goal with
    | |- context [deleteLoop instant ?p1 rkeys ?w1] =>
        specialize (IH p1 w1)
    end.
    cbv zeta in IH. cbn [rateLimit deletionsThisWindow windowStart clock
                         deleted failed errors trace deleteTimes] in IH.
    destruct IH as (R & D & F & E & C & T); [lia | lia |].
    rewrite R, D, F, E, C, T.
    repeat split; try (f_equal; lia); try lia.
    rewrite <- app_assoc. f_equal. cbn [List.length seq map app].
    f_equal; [lia|]. rewrite <- seq_shift, map_map.
    apply map_ext. intros k. lia.
Qed.

Lemma deleteLoop_one (remote : DeleteService) (p : Progress)
      (rkey : string) (w : World) :
  deleteLoop remote p [rkey] w = deleteOne remote p rkey w.
Proof.
  rewrite deleteLoop_cons. cbn [deleteLoop]. unfold ret.
  now destruct (deleteOne remote p rkey w).
Qed.

Lemma deleteWithRetry_success (remote : DeleteService) (rkey : string)
      (w : World) :
  outcome (remote (requests w)) = None ->
  deleteWithRetry remote rkey w = (Ok tt, snd (deleteRecord remote rkey w)).
Proof.
  intros H. unfold deleteWithRetry. rewrite attemptsFrom_start.
  now apply deleteAttempts_success.
Qed.

(** One turn on a record that is deleted at once when the cap is
    reached: the request goes out a second after the window's hour. *)
Lemma deleteOne_instant_at_cap (p : Progress) (rkey : string) (w : World) :
  MAX_DELETIONS_PER_HOUR <= deletionsThisWindow (rateLimit p) ->
  0 <= clock w - windowStart (rateLimit p) < HOUR_MS ->
  let x := deleteOne instant p rkey w in
  deleted (fst x) = deleted p + 1
  /\ failed (fst x) = failed p
  /\ deleteTimes (trace (snd x))
     = deleteTimes (trace w) ++ [windowStart (rateLimit p) + HOUR_MS + 1000].
Proof.
  intros Hc He x. subst x. rewrite deleteOne_unfold. cbv zeta.
  destruct (enforceRateLimit_cases (rateLimit p) w) as (_ & _ & Full).
  destruct Full as (Eq & Tr & Cl); [lia | lia |].
  specialize (Cl ltac:(lia)). rewrite Eq. cbn [fst snd].
  set (w' := snd (sleep _ w)) in *.
  rewrite (deleteWithRetry_success instant rkey w') by reflexivity.
  cbn [fst snd tally deleted failed sleep trace deleteRecord deleteTimes].
  rewrite Tr, Cl. cbn [deleteTimes]. repeat split.
Qed.

Lemma deleteRecords_unfold (remote : DeleteService)
      (records : list Records.RecordRef) (w : World) :
  deleteRecords remote records w
  = deleteLoop remote
      {| rateLimit := {| deletionsThisWindow := 0; windowStart := clock w |};
         deleted := 0; failed := 0; errors := [] |}
      (map Records.ref_rkey records) w.
Proof. reflexivity. Qed.

(** One record more than the cap, all deleted at once. *)
Lemma deleteRecords_instant_over_cap (t0 : Z) (records : list Records.RecordRef) :
  Z.of_nat (List.length records) = MAX_DELETIONS_PER_HOUR + 1 ->
  let run := deleteRecords instant records (newWorld t0) in
  deleted (fst run) = MAX_DELETIONS_PER_HOUR + 1
  /\ failed (fst run) = 0
  /\ deleteTimes (trace (snd run))
     = map (fun k => t0 + 50 * Z.of_nat k) (seq 0 4500)
       ++ [t0 + HOUR_MS + 1000].
Proof.
  intros Hlen run.
  assert (Hsplit : exists firsts lastKey,
            map Records.ref_rkey records = firsts ++ [lastKey]
            /\ List.length firsts = 4500%nat).
  { destruct (exists_last (l := map Records.ref_rkey records))
      as (firsts & lastKey & E).
    - intros E. apply (f_equal (@List.length _)) in E.
      rewrite length_map in E. unfold MAX_DELETIONS_PER_HOUR in Hlen.
      simpl in E. lia.
    - exists firsts, lastKey. split; [exact E|].
      apply (f_equal (@List.length _)) in E.
      rewrite length_map, length_app in E. simpl in E.
      unfold MAX_DELETIONS_PER_HOUR in Hlen. lia. }
  destruct Hsplit as (firsts & lastKey & E & L).
  subst run. rewrite deleteRecords_unfold, E, deleteLoop_app.
  set (p0 := {| rateLimit := {| deletionsThisWindow := 0;
                                windowStart := clock (newWorld t0) |};
                deleted := 0; failed := 0; errors := [] |}).
  pose proof (deleteLoop_instant firsts p0 (newWorld t0)) as I.
  cbv zeta in I. rewrite L in I.
  cbn [p0 rateLimit deletionsThisWindow windowStart newWorld clock
       deleted failed errors trace deleteTimes app] in I.
  destruct I as (R & D & F & _ & C & T);
    [unfold MAX_DELETIONS_PER_HOUR; lia | unfold HOUR_MS; lia |].
  set (r1 := deleteLoop instant p0 firsts (newWorld t0)) in *.
  rewrite deleteLoop_one.
  destruct (deleteOne_instant_at_cap (fst r1) lastKey (snd r1))
    as (D' & F' & T').
  { rewrite R. cbn [deletionsThisWindow]. unfold MAX_DELETIONS_PER_HOUR. lia. }
  { rewrite R, C. cbn [windowStart]. unfold HOUR_MS. lia. }
  rewrite D', F', T', D, F, T, R. cbn [windowStart].
  unfold MAX_DELETIONS_PER_HOUR, HOUR_MS. repeat split; lia.
Qed.

(** C8: the window counter after the quota check is below the cap of
    4500, so it never exceeds the cap, on any service; the check resets
    count and window once an hour has passed, and at the cap it sleeps to
    the window's one-hour mark plus one second and then resets.  With
    4501 records that the service deletes at once, the first 4500 requests
    go out 50 ms apart and the last one only a second after the hour. *)
Theorem quota_per_window :
  (forall st w,
     (HOUR_MS <= clock w - windowStart st ->
      enforceRateLimit st w
      = ({| deletionsThisWindow := 0; windowStart := clock w |}, w))
     /\ (clock w - windowStart st < HOUR_MS ->
         deletionsThisWindow st < MAX_DELETIONS_PER_HOUR ->
         enforceRateLimit st w = (st, w))
     /\ (clock w - windowStart st < HOUR_MS ->
         MAX_DELETIONS_PER_HOUR <= deletionsThisWindow st ->
         let ms := HOUR_MS - (clock w - windowStart st) + 1000 in
         let w' := snd (sleep (Some ms) w) in
         enforceRateLimit st w
         = ({| deletionsThisWindow := 0; windowStart := clock w' |}, w')
         /\ trace w' = EvSleep (Some ms) :: trace w
         /\ (0 <= clock w - windowStart st ->
             clock w' = windowStart st + HOUR_MS + 1000)))
  /\ (forall remote records w,
        MAX_DELETIONS_PER_HOUR = 4500
        /\ deletionsThisWindow
             (rateLimit (fst (deleteRecords remote records w))) <= 4500)
  /\ (forall t0 records,
        Z.of_nat (List.length records) = MAX_DELETIONS_PER_HOUR + 1 ->
        let run := deleteRecords instant records (newWorld t0) in
        deleted (fst run) = MAX_DELETIONS_PER_HOUR + 1
        /\ failed (fst run) = 0
        /\ deleteTimes (trace (snd run))
           = map (fun k => t0 + 50 * Z.of_nat k) (seq 0 4500)
             ++ [t0 + HOUR_MS + 1000]).
Proof.
  split; [apply enforceRateLimit_cases|]. split.
  - intros remote records w. split; [reflexivity|].
    rewrite deleteRecords_unfold.
    apply (deleteLoop_count remote). cbn. discriminate.
  - apply deleteRecords_instant_over_cap.
Qed.

Lemma quota_per_window_witness :
  let run := deleteRecords instant (repeat (recordRef "3jzfcijpj2z2a") 4501)
                           (newWorld 0) in
  deleted (fst run) = 4501
  /\ last (deleteTimes (trace (snd run))) 0 = HOUR_MS + 1000.
Proof.
  destruct quota_per_window as (_ & _ & H).
  destruct (H 0 (repeat (recordRef "3jzfcijpj2z2a") 4501) eq_refl)
    as (D & _ & T).
  split; [exact D|]. rewrite T. apply last_last.
Defined.

(** A not-found answer to the first attempt, seen from [deleteWithRetry]. *)
Lemma deleteWithRetry_not_found (remote : DeleteService) (rkey : string)
      (w : World) (err : RemoteError) (m : string) :
  outcome (remote (requests w)) = Some err ->
  status err = Some 400 ->
  message err = Some m ->
  includes m "not found" = true ->
  deleteWithRetry remote rkey w = (Ok tt, snd (deleteRecord remote rkey w)).
Proof.
  intros H Hs Hm Hi. unfold deleteWithRetry. rewrite attemptsFrom_start.
  now apply (deleteAttempts_not_found remote 0 [1; 2] None rkey w err m).
Qed.

(** A turn whose delete is answered not-found runs as the turn whose
    delete is answered with a success after the same time. *)
Lemma deleteOne_absent_as_deleted (remote remote' : DeleteService)
      (p : Progress) (rkey : string) (w : World) (err : RemoteError)
      (m : string) :
  outcome (remote (requests w)) = Some err ->
  status err = Some 400 ->
  message err = Some m ->
  includes m "not found" = true ->
  outcome (remote' (requests w)) = None ->
  latency (remote' (requests w)) = latency (remote (requests w)) ->
  deleteOne remote p rkey w = deleteOne remote' p rkey w.
Proof.
  intros H Hs Hm Hi H' L'. rewrite !deleteOne_unfold. cbv zeta.
  pose proof (enforceRateLimit_requests (rateLimit p) w) as R.
  set (w1 := snd (enforceRateLimit (rateLimit p) w)) in *.
  rewrite <- R in H, H', L'.
  rewrite (deleteWithRetry_not_found remote rkey w1 err m H Hs Hm Hi).
  rewrite (deleteWithRetry_success remote' rkey w1 H').
  unfold deleteRecord. cbn [fst snd]. now rewrite L'.
Qed.

Lemma deleteLoop_absent_as_deleted (rkeys : list string) :
  forall p w,
    deleteLoop alwaysAbsent p rkeys w = deleteLoop instant p rkeys w.
Proof.
  induction rkeys as [|rkey rkeys IH]; intros p w; [reflexivity|].
  rewrite !deleteLoop_cons.
  rewrite (deleteOne_absent_as_deleted alwaysAbsent instant p rkey w
             notFound "Record not found") by reflexivity.
  apply IH.
Qed.

(** C9: when the service answers a delete with status 400 and a message
    containing "not found", [deleteWithRetry] returns as after a success:
    the record is not counted as failed and no error message is recorded.
    Deleting the same record key twice in a row, the second time answered
    not-found, succeeds both times. *)
Theorem not_found_is_success
        (remote : DeleteService) (p : Progress) (rkey : string) (w : World)
        (err : RemoteError) (m : string) :
  outcome (remote (requests w)) = Some err ->
  status err = Some 400 ->
  message err = Some m ->
  includes m "not found" = true ->
  deleteWithRetry remote rkey w = (Ok tt, snd (deleteRecord remote rkey w))
  /\ (forall attempt later lastError,
        fst (deleteAttempts remote (attempt :: later) lastError rkey w) = Ok tt)
  /\ failed (fst (deleteOne remote p rkey w)) = failed p
  /\ errors (fst (deleteOne remote p rkey w)) = errors p
  /\ (let run := deleteRecords deletedOnce [recordRef rkey; recordRef rkey]
                               (newWorld 0) in
      deleted (fst run) = 2 /\ failed (fst run) = 0 /\ errors (fst run) = []
      /\ requests (snd run) = 2%nat).
Proof.
  intros H Hs Hm Hi. split; [|split; [|split; [|split]]].
  - now apply (deleteWithRetry_not_found remote rkey w err m).
  - intros attempt later lastError.
    now rewrite (deleteAttempts_not_found remote attempt later lastError
                   rkey w err m).
  - rewrite deleteOne_unfold. cbv zeta. cbn [fst].
    rewrite (deleteWithRetry_not_found remote rkey _ err m);
      rewrite ?enforceRateLimit_requests; try assumption. reflexivity.
  - rewrite deleteOne_unfold. cbv zeta. cbn [fst].
    rewrite (deleteWithRetry_not_found remote rkey _ err m);
      rewrite ?enforceRateLimit_requests; try assumption. reflexivity.
  - cbv zeta. repeat split.
Qed.

Lemma not_found_is_success_witness :
  fst (deleteWithRetry alwaysAbsent "3jzfcijpj2z2a" (newWorld 0)) = Ok tt.
Proof.
  destruct (not_found_is_success alwaysAbsent
              {| rateLimit := {| deletionsThisWindow := 0; windowStart := 0 |};
                 deleted := 0; failed := 0; errors := [] |}
              "3jzfcijpj2z2a" (newWorld 0) notFound "Record not found"
              eq_refl eq_refl eq_refl eq_refl) as (E & _).
  now rewrite E.
Defined.

(** C10: a record whose delete is answered not-found is counted in
    [deleted] and in the window counter [deletionsThisWindow], and the
    turn runs exactly as one whose delete succeeded; so records that were
    already absent use up the quota: of 4501 of them the last is only
    asked for a second after the window's hour. *)
Theorem absent_record_uses_quota
        (remote : DeleteService) (p : Progress) (rkey : string) (w : World)
        (err : RemoteError) (m : string) :
  outcome (remote (requests w)) = Some err ->
  status err = Some 400 ->
  message err = Some m ->
  includes m "not found" = true ->
  let rl := fst (enforceRateLimit (rateLimit p) w) in
  let p' := fst (deleteOne remote p rkey w) in
  deleted p' = deleted p + 1
  /\ rateLimit p'
     = {| deletionsThisWindow := deletionsThisWindow rl + 1;
          windowStart := windowStart rl |}
  /\ (forall remote',
        outcome (remote' (requests w)) = None ->
        latency (remote' (requests w)) = latency (remote (requests w)) ->
        deleteOne remote p rkey w = deleteOne remote' p rkey w)
  /\ (forall t0 records,
        Z.of_nat (List.length records) = MAX_DELETIONS_PER_HOUR + 1 ->
        let run := deleteRecords alwaysAbsent records (newWorld t0) in
        deleted (fst run) = MAX_DELETIONS_PER_HOUR + 1
        /\ failed (fst run) = 0
        /\ deleteTimes (trace (snd run))
           = map (fun k => t0 + 50 * Z.of_nat k) (seq 0 4500)
             ++ [t0 + HOUR_MS + 1000]).
Proof.
  intros H Hs Hm Hi rl p'. subst rl p'. split; [|split; [|split]].
  - rewrite deleteOne_unfold. cbv zeta. cbn [fst].
    rewrite (deleteWithRetry_not_found remote rkey _ err m);
      rewrite ?enforceRateLimit_requests; try assumption. reflexivity.
  - rewrite deleteOne_unfold. cbv zeta. cbn [fst].
    rewrite (deleteWithRetry_not_found remote rkey _ err m);
      rewrite ?enforceRateLimit_requests; try assumption. reflexivity.
  - intros remote' H' L'.
    now apply (deleteOne_absent_as_deleted remote remote' p rkey w err m).
  - intros t0 records Hlen.
    rewrite deleteRecords_unfold, deleteLoop_absent_as_deleted,
      <- deleteRecords_unfold.
    now apply deleteRecords_instant_over_cap.
Qed.

Lemma absent_record_uses_quota_witness :
  let p := {| rateLimit := {| deletionsThisWindow := 7; windowStart := 0 |};
              deleted := 7; failed := 0; errors := [] |} in
  let p' := fst (deleteOne alwaysAbsent p "3jzfcijpj2z2a" (newWorld 350)) in
  deleted p' = 8 /\ deletionsThisWindow (rateLimit p') = 8.
Proof.
  intros p.
  destruct (absent_record_uses_quota alwaysAbsent p "3jzfcijpj2z2a"
              (newWorld 350) notFound "Record not found"
              eq_refl eq_refl eq_refl eq_refl) as (D & R & _).
  split; [exact D|]. cbv zeta. rewrite R. reflexivity.
Defined.

(** * Further properties *)

(** ** Identifiers *)

Lemma tidToDate_inv (tid : string) (date : Z) :
  tidToDate tid = Ok date ->
  exists ts, tidTimestamp tid = Ok ts /\ date = ts / 1000 /\ 0 <= ts < 32 ^ 11.
Proof.
  unfold tidToDate. destruct (tidTimestamp tid) as [ts|e] eqn:E; [|discriminate].
  intros H. injection H as <-. exists ts.
  destruct (tidTimestamp_inv tid ts E) as (_ & R & _).
  repeat split; try lia. apply Z.quot_div_nonneg; lia.
Qed.

(** X1: every decoded time lies between the epoch and 36028797018963 ms,
    so the conversion of the BigInt to a number is exact (below 2^53) and
    the [Date] built from it is a valid one (within 8.64e15 ms). *)
Theorem tidToDate_in_date_range (tid : string) (date : Z) :
  tidToDate tid = Ok date ->
  0 <= date <= 36028797018963
  /\ date < 2 ^ 53
  /\ date <= 8640000000000000.
Proof.
  intros H. destruct (tidToDate_inv tid date H) as (ts & _ & -> & R).
  assert (0 <= ts / 1000) by (apply Z.div_pos; lia).
  assert (ts / 1000 <= (32 ^ 11 - 1) / 1000) by (apply Z.div_le_mono; lia).
  change ((32 ^ 11 - 1) / 1000) with 36028797018963 in *.
  change (2 ^ 53) with 9007199254740992. lia.
Qed.

Lemma tidToDate_in_date_range_witness :
  0 <= 36028797018963 <= 36028797018963.
Proof.
  destruct (tidToDate_in_date_range "zzzzzzzzzzzzz" 36028797018963 eq_refl)
    as (H & _).
  exact H.
Defined.

Lemma decodeChar_lower (c d : ascii) :
  toLowerCase c = toLowerCase d ->
  forall v, decodeChar c = Ok v -> decodeChar d = Ok v.
Proof.
  unfold decodeChar. intros ->. cbv zeta.
  destruct (indexOf B32_CHARS (toLowerCase d) =? -1); [discriminate|].
  trivial.
Qed.

Lemma decodeLoop_lower (s t : string) :
  map toLowerCase (chars s) = map toLowerCase (chars t) ->
  forall acc v, decodeLoop acc s = Ok v -> decodeLoop acc t = Ok v.
Proof.
  revert t. induction s as [|c s IH]; intros [|d t] H acc v;
    try discriminate H; [trivial|].
  cbn [chars list_ascii_of_string map] in H. injection H as Hc Hs.
  cbn [decodeLoop].
  destruct (decodeChar c) as [x|e] eqn:E; [|discriminate].
  rewrite (decodeChar_lower c d Hc x E). apply IH. exact Hs.
Qed.

(** X2: decoding is case-insensitive: two identifiers that agree after
    lower-casing every character decode to the same time. *)
Theorem tidToDate_case_insensitive (a b : string) (date : Z) :
  map toLowerCase (chars a) = map toLowerCase (chars b) ->
  tidToDate a = Ok date ->
  tidToDate b = Ok date.
Proof.
  intros H. unfold tidToDate, tidTimestamp.
  assert (L : String.length b = String.length a).
  { rewrite <- !chars_length.
    apply (f_equal (@List.length _)) in H. rewrite !length_map in H. lia. }
  rewrite L. destruct (negb (String.length a =? 13)%nat); [discriminate|].
  destruct (decodeLoop 0 (substring 0 11 a)) as [ts|e] eqn:E; [|discriminate].
  rewrite (decodeLoop_lower (substring 0 11 a) (substring 0 11 b)) with (v := ts).
  - trivial.
  - rewrite !chars_substring, <- !firstn_map. now rewrite H.
  - exact E.
Qed.

Lemma tidToDate_case_insensitive_witness :
  tidToDate "3JZFCIJPJ2Z2A" = Ok 1688137381887.
Proof.
  apply (tidToDate_case_insensitive "3jzfcijpj2z2a" "3JZFCIJPJ2Z2A");
    reflexivity.
Defined.

Lemma canonical_tid_compare (a b : string) :
  canonical_tid a = true -> canonical_tid b = true ->
  exists la lb,
    0 <= la < 1024 /\ 0 <= lb < 1024
    /\ String.compare a b
       = (encoded_micros a * 1024 + la ?= encoded_micros b * 1024 + lb)
    /\ tidToDate a = Ok (encoded_micros a / 1000)
    /\ tidToDate b = Ok (encoded_micros b / 1000).
Proof.
  intros Ha Hb.
  destruct (canonical_tid_inv _ Ha) as (La & Ca & Da & la & Rla & Va).
  destruct (canonical_tid_inv _ Hb) as (Lb & Cb & Db & lb & Rlb & Vb).
  exists la, lb. change (32 ^ 2) with 1024 in *.
  repeat split; try lia; try assumption.
  rewrite (compare_big_endian a b) by congruence. now rewrite Va, Vb.
Qed.

(** X3: identifiers written in the alphabet's lower-case symbols sort as
    they decode: one that sorts before another never decodes to a later
    time, and one that decodes to an earlier time sorts before. *)
Theorem tidToDate_monotone (a b : string) (ta tb : Z) :
  canonical_tid a = true -> canonical_tid b = true ->
  tidToDate a = Ok ta -> tidToDate b = Ok tb ->
  (String.compare a b = Lt -> ta <= tb)
  /\ (ta < tb -> String.compare a b = Lt).
Proof.
  intros Ha Hb Da Db.
  destruct (canonical_tid_compare a b Ha Hb) as (la & lb & Rla & Rlb & C & Ea & Eb).
  rewrite Ea in Da. rewrite Eb in Db. injection Da as <-. injection Db as <-.
  rewrite C. split.
  - intros H. rewrite Z.compare_lt_iff in H.
    apply Z.div_le_mono; lia.
  - intros H. apply Z.compare_lt_iff.
    assert (encoded_micros a < encoded_micros b).
    { destruct (Z.lt_ge_cases (encoded_micros a) (encoded_micros b)) as [|G];
        [assumption|].
      apply (Z.div_le_mono _ _ 1000) in G; lia. }
    lia.
Qed.

Lemma tidToDate_monotone_witness :
  1688137379789 <= 1688137381887.
Proof.
  destruct (tidToDate_monotone "3jzfcihpj2z22" "3jzfcijpj2z2a"
              1688137379789 1688137381887 eq_refl eq_refl eq_refl eq_refl)
    as (H & _).
  apply H. reflexivity.
Defined.

Lemma canonical_prefix (tid : string) :
  canonical_tid tid = true ->
  String.length (substring 0 11 tid) = 11%nat
  /\ forallb canonical (chars (substring 0 11 tid)) = true
  /\ tidTimestamp tid = Ok (big_endian (digitsOf (substring 0 11 tid))).
Proof.
  intros H. destruct (canonical_tid_inv _ H) as (L & C & _).
  assert (Hp : forallb canonical (firstn 11 (chars tid)) = true).
  { apply forallb_forall. intros c Hc. rewrite forallb_forall in C.
    apply C. rewrite <- (firstn_skipn 11 (chars tid)).
    apply in_or_app. now left. }
  repeat split.
  - rewrite <- chars_length, chars_substring, length_firstn, chars_length, L.
    reflexivity.
  - now rewrite chars_substring.
  - rewrite tidTimestamp_ok.
    + unfold encoded_micros, digitsOf. now rewrite chars_substring.
    + now apply Nat.eqb_eq.
    + apply forallb_forall. intros c Hc. apply canonical_in_alphabet.
      rewrite forallb_forall in Hp. now apply Hp.
Qed.

(** X4: the timestamp part is decoded injectively: two identifiers in
    lower-case symbols carry the same microsecond timestamp exactly when
    their first 11 characters are the same. *)
Theorem tidTimestamp_injective (a b : string) :
  canonical_tid a = true -> canonical_tid b = true ->
  (tidTimestamp a = tidTimestamp b <-> substring 0 11 a = substring 0 11 b).
Proof.
  intros Ha Hb.
  destruct (canonical_prefix a Ha) as (La & Ca & Ta).
  destruct (canonical_prefix b Hb) as (Lb & Cb & Tb).
  rewrite Ta, Tb. split.
  - intros H. injection H as H.
    apply String.compare_eq_iff.
    rewrite compare_big_endian by congruence.
    apply Z.compare_eq_iff. exact H.
  - intros ->. reflexivity.
Qed.

Lemma tidTimestamp_injective_witness :
  tidTimestamp "3jzfcijpj2z2a" = tidTimestamp "3jzfcijpj2z77".
Proof.
  apply (tidTimestamp_injective "3jzfcijpj2z2a" "3jzfcijpj2z77" eq_refl eq_refl).
  reflexivity.
Defined.

(** ** Listing and selection *)

Lemma split_no_separator (key : string) :
  noSlash key = true -> split "/" key = [key].
Proof.
  induction key as [|c key IH]; [reflexivity|].
  cbn [noSlash split]. intros H. apply andb_true_iff in H as [Hc Hk].
  apply negb_true_iff in Hc. rewrite Hc, (IH Hk). reflexivity.
Qed.

Lemma split_not_nil (s : string) : split "/" s <> [].
Proof.
  destruct s as [|c s]; cbn [split]; [discriminate|].
  destruct (Ascii.eqb c "/"); [discriminate|].
  destruct (split "/" s); discriminate.
Qed.

Lemma last_cons_not_nil {A} (x : A) (l : list A) (d : A) :
  l <> [] -> last (x :: l) d = last l d.
Proof. destruct l; [congruence | reflexivity]. Qed.

Lemma split_after_separator (p s : string) :
  (2 <= List.length (split "/" (String.append p (String "/" s))))%nat
  /\ last (split "/" (String.append p (String "/" s))) EmptyString
     = last (split "/" s) EmptyString.
Proof.
  induction p as [|c p [IHlen IHlast]].
  - cbn [String.append split]. rewrite Ascii.eqb_refl.
    pose proof (split_not_nil s) as N. split.
    + destruct (split "/" s); [congruence | simpl; lia].
    + now apply last_cons_not_nil.
  - cbn [String.append split]. destruct (Ascii.eqb c "/").
    + split; [simpl; lia|].
      rewrite last_cons_not_nil; [exact IHlast | apply split_not_nil].
    + destruct (split "/" (String.append p (String "/" s))) as [|seg segs];
        [simpl in IHlen; lia|].
      split; [exact IHlen|].
      destruct segs as [|seg' segs]; [simpl in IHlen; lia|].
      exact IHlast.
Qed.

Lemma split_segments_no_slash (s : string) :
  Forall (fun seg => noSlash seg = true) (split "/" s).
Proof.
  induction s as [|c s IH]; cbn [split]; [repeat constructor|].
  destruct (Ascii.eqb c "/") eqn:E; [constructor; [reflexivity | exact IH]|].
  destruct (split "/" s) as [|seg segs]; [repeat constructor; simpl; now rewrite E|].
  inversion IH as [|? ? Hseg Hsegs]; subst.
  constructor; [|exact Hsegs]. cbn [noSlash]. now rewrite E, Hseg.
Qed.

(** X5: the record key taken from a URI is what follows its last slash:
    for a key without a slash, [rkeyOfUri (prefix ++ "/" ++ key) = key];
    and a key taken from any URI contains no slash. *)
Theorem rkeyOfUri_last_segment :
  (forall prefix key,
     noSlash key = true ->
     rkeyOfUri (String.append prefix (String "/" key)) = key)
  /\ (forall u, noSlash (rkeyOfUri u) = true).
Proof.
  split.
  - intros prefix key H. unfold rkeyOfUri.
    destruct (split_after_separator prefix key) as [_ ->].
    now rewrite split_no_separator.
  - intros u. unfold rkeyOfUri.
    pose proof (split_segments_no_slash u) as F.
    pose proof (split_not_nil u) as N.
    destruct (exists_last N) as (l & seg & E). rewrite E in *.
    rewrite last_last. apply Forall_app in F as [_ F].
    now inversion F.
Qed.

Lemma rkeyOfUri_last_segment_witness :
  rkeyOfUri "at://did:plc:me/fm.teal.alpha.feed.play/3jzfcijpj2z2a"
  = "3jzfcijpj2z2a".
Proof.
  destruct rkeyOfUri_last_segment as [H _].
  apply (H "at://did:plc:me/fm.teal.alpha.feed.play" "3jzfcijpj2z2a").
  reflexivity.
Defined.

(** Insertion by a key keeps a list ordered by that key. *)
Lemma insert_sorted {A} (key : A -> Z) (x : A) (l : list A) :
  StronglySorted (fun a b => key a <= key b) l ->
  StronglySorted (fun a b => key a <= key b)
                 (insert (fun a b => key a - key b) x l).
Proof.
  induction 1 as [|y l Hl IH Hy]; cbn [insert].
  - repeat constructor.
  - destruct (Z.ltb_spec 0 (key x - key y)).
    + constructor; [exact IH|].
      apply Forall_forall. intros z Hz.
      apply (Permutation_in _ (Permutation_sym (insert_perm _ x l))) in Hz.
      destruct Hz as [<- | Hz]; [lia|].
      rewrite Forall_forall in Hy. now apply Hy.
    + constructor; [now constructor|].
      constructor; [lia|].
      apply Forall_forall. intros z Hz. rewrite Forall_forall in Hy.
      specialize (Hy z Hz). lia.
Qed.

Lemma sort_sorted {A} (key : A -> Z) (l : list A) :
  StronglySorted (fun a b => key a <= key b)
                 (sort (fun a b => key a - key b) l).
Proof.
  induction l as [|x l IH]; cbn [sort]; [constructor|].
  now apply insert_sorted.
Qed.

(** Insertion does not reorder elements of equal key. *)
Lemma insert_stable {A} (key : A -> Z) (t : Z) (x : A) (l : list A) :
  filter (fun a => key a =? t) (insert (fun a b => key a - key b) x l)
  = filter (fun a => key a =? t) (x :: l).
Proof.
  induction l as [|y l IH]; [reflexivity|].
  cbn [insert]. destruct (Z.ltb_spec 0 (key x - key y)); [|reflexivity].
  cbn [filter] in *. rewrite IH.
  destruct (Z.eqb_spec (key x) t), (Z.eqb_spec (key y) t);
    try reflexivity; lia.
Qed.

Lemma sort_stable {A} (key : A -> Z) (t : Z) (l : list A) :
  filter (fun a => key a =? t) (sort (fun a b => key a - key b) l)
  = filter (fun a => key a =? t) l.
Proof.
  induction l as [|x l IH]; [reflexivity|].
  cbn [sort]. rewrite insert_stable. cbn [filter]. now rewrite IH.
Qed.

(** X6: the selection is returned oldest first: every record is no later
    than all the records after it. *)
Theorem selectInRange_sorted (entries : list Entry) (start end_ : Z) :
  StronglySorted (fun a b => createdAt a <= createdAt b)
                 (selectInRange entries start end_).
Proof.
  unfold selectInRange. apply (sort_sorted createdAt).
Qed.

(** X7: the sort is stable: the selected records of one decoded time
    come out in the order the listing gave them. *)
Theorem selectInRange_stable (entries : list Entry) (start end_ t : Z) :
  filter (fun r => createdAt r =? t) (selectInRange entries start end_)
  = map refOf (filter (fun e => inRange start end_ e && (decodedTime e =? t))
                      entries).
Proof.
  rewrite selectInRange_spec.
  rewrite (sort_stable createdAt t).
  induction entries as [|e entries IH]; [reflexivity|].
  cbn [filter]. destruct (inRange start end_ e); cbn [andb map filter].
  - cbn [refOf createdAt]. destruct (decodedTime e =? t); cbn [map];
      now rewrite IH.
  - exact IH.
Qed.

Lemma inRange_true (start end_ : Z) (e : Entry) :
  inRange start end_ e = true ->
  Tid.tidToDate (Records.rkey e) = Ok (decodedTime e)
  /\ start <= decodedTime e <= end_.
Proof.
  unfold inRange, decodedTime, tidInRange.
  destruct (tidToDate (Records.rkey e)) as [d|err]; [|discriminate].
  intros H. apply andb_true_iff in H as [H1 H2]. split; [reflexivity | lia].
Qed.

(** X8: every selected record comes from a listed entry, carries the
    decoded time of its key as [createdAt], and lies within the bounds;
    nothing is selected twice over: the selection is no longer than the
    listing. *)
Theorem selectInRange_sound (entries : list Entry) (start end_ : Z) :
  (forall ref, In ref (selectInRange entries start end_) ->
     (exists e, In e entries /\ ref_rkey ref = Records.rkey e
                /\ ref_uri ref = uri e)
     /\ tidToDate (ref_rkey ref) = Ok (createdAt ref)
     /\ start <= createdAt ref <= end_)
  /\ (List.length (selectInRange entries start end_)
      <= List.length entries)%nat.
Proof.
  split.
  - intros ref H. apply selectInRange_In in H as (e & Hin & Hr & ->).
    destruct (inRange_true _ _ _ Hr) as [D R].
    split; [now exists e | split; assumption].
  - rewrite selectInRange_spec.
    rewrite <- (Permutation_length (sort_perm byCreatedAt _)), length_map.
    apply filter_length_le.
Qed.

(** X9: an entry whose key is not a TID is skipped and the scan goes on:
    the selection is the same as without it. *)
Theorem selectInRange_skips_invalid
        (before after : list Entry) (bad : Entry) (err : TidError)
        (start end_ : Z) :
  tidToDate (Records.rkey bad) = Throw err ->
  selectInRange (before ++ bad :: after) start end_
  = selectInRange (before ++ after) start end_.
Proof.
  intros H. rewrite !selectInRange_spec, !filter_app. cbn [filter].
  unfold inRange at 2. unfold tidInRange. rewrite H. reflexivity.
Qed.

Lemma selectInRange_skips_invalid_witness :
  selectInRange [entryOf "at://me/play/3jzfcijpj2z2a";
                 entryOf "at://me/play/self";
                 entryOf "at://me/play/3jzfcihpj2z22"] 0 1700000000000
  = selectInRange [entryOf "at://me/play/3jzfcijpj2z2a";
                   entryOf "at://me/play/3jzfcihpj2z22"] 0 1700000000000.
Proof.
  apply (selectInRange_skips_invalid
           [entryOf "at://me/play/3jzfcijpj2z2a"]
           [entryOf "at://me/play/3jzfcihpj2z22"]
           (entryOf "at://me/play/self") (InvalidTIDLength 4)).
  reflexivity.
Defined.

(** X10: with the bounds the wrong way round nothing is selected. *)
Theorem selectInRange_reversed_bounds (entries : list Entry) (start end_ : Z) :
  end_ < start ->
  selectInRange entries start end_ = [].
Proof.
  intros H. rewrite selectInRange_spec.
  replace (filter (inRange start end_) entries) with (@nil Entry);
    [reflexivity|].
  symmetry. induction entries as [|e entries IH]; [reflexivity|].
  cbn [filter]. destruct (inRange start end_ e) eqn:E; [|exact IH].
  apply inRange_true in E as [_ R]. lia.
Qed.

Lemma selectInRange_reversed_bounds_witness :
  selectInRange [entryOf "at://me/play/3jzfcijpj2z2a"]
                1700000000000 1600000000000 = [].
Proof.
  apply (selectInRange_reversed_bounds
           [entryOf "at://me/play/3jzfcijpj2z2a"] 1700000000000 1600000000000).
  lia.
Defined.

(** X11: against a service whose every answer is a full page with a
    non-empty cursor the listing never ends: no number of iterations
    reaches the [break]. *)
Theorem listAllRecords_endless (svc : ListService) :
  (forall n cur, lastPage (svc n cur) = false) ->
  forall fuel, listAllRecords fuel svc = None.
Proof.
  intros H fuel. unfold listAllRecords.
  generalize 0%nat as n. generalize (@None string) as cur.
  induction fuel as [|fuel IH]; intros cur n; [reflexivity|].
  cbn [listAllRecords_from].
  specialize (H n cur). unfold lastPage, shortPage in H. rewrite H.
  now rewrite IH.
Qed.

Lemma listAllRecords_endless_witness :
  listAllRecords 1000
    (fun _ _ => {| records := repeat "at://me/play/3jzfcijpj2z2a" 100;
                   cursor := Some "again" |}) = None.
Proof.
  apply (listAllRecords_endless
           (fun _ _ => {| records := repeat "at://me/play/3jzfcijpj2z2a" 100;
                          cursor := Some "again" |})).
  intros n cur. reflexivity.
Defined.

Lemma entriesOfPages_length (svc : ListService) (k n : nat) :
  List.length (entriesOfPages svc k n)
  = list_sum (map (fun j => List.length (records (responseAt svc j)))
                  (seq k n)).
Proof.
  unfold entriesOfPages. revert k.
  induction n as [|n IH]; intros k; [reflexivity|].
  cbn [seq flat_map map list_sum]. rewrite length_app, length_map, IH.
  reflexivity.
Qed.

Lemma list_sum_full_pages (svc : ListService) (k n : nat) :
  (forall j, (k <= j < k + n)%nat -> shortPage (responseAt svc j) = false) ->
  (100 * n <= list_sum (map (fun j => List.length (records (responseAt svc j)))
                            (seq k n)))%nat.
Proof.
  revert k. induction n as [|n IH]; intros k H; [simpl; lia|].
  cbn [seq map list_sum fold_right].
  assert (Hk : shortPage (responseAt svc k) = false) by (apply H; lia).
  unfold shortPage, PAGE_SIZE in Hk. apply Z.ltb_ge in Hk.
  assert (Hrest : forall j, (S k <= j < S k + n)%nat ->
                            shortPage (responseAt svc j) = false)
    by (intros j Hj; apply H; lia).
  specialize (IH (S k) Hrest). unfold list_sum in IH. lia.
Qed.

(** X12: when the listing ends after [n] full pages and a last page,
    [countRecords] returns the sum of the sizes of those [n + 1] pages,
    which is at least [100 * n]. *)
Theorem countRecords_sums_pages (svc : ListService) (n fuel : nat) :
  (forall j, (j < n)%nat -> lastPage (responseAt svc j) = false) ->
  lastPage (responseAt svc n) = true ->
  (n < fuel)%nat ->
  exists total,
    countRecords fuel svc = Some (Z.of_nat total)
    /\ total = list_sum (map (fun j => List.length (records (responseAt svc j)))
                             (seq 0 (S n)))
    /\ (100 * n <= total)%nat.
Proof.
  intros Hfull Hlast Hfuel. eexists. split; [|split; [reflexivity|]].
  - unfold countRecords, listAllRecords.
    change (@None string) with (cursorSent svc 0).
    rewrite (listAllRecords_from_spec svc n 0 fuel); try assumption.
    + cbn [yielded]. now rewrite entriesOfPages_length.
    + intros j Hj. apply Hfull. lia.
  - rewrite seq_S, map_app, list_sum_app.
    pose proof (list_sum_full_pages svc 0 n) as B.
    assert (forall j, (0 <= j < 0 + n)%nat ->
                      shortPage (responseAt svc j) = false).
    { intros j Hj. specialize (Hfull j ltac:(lia)).
      unfold lastPage in Hfull. now apply orb_false_iff in Hfull as [_ ?]. }
    specialize (B H). cbn [map list_sum fold_right]. lia.
Qed.

Lemma countRecords_sums_pages_witness :
  countRecords 5 endlessService = Some 103.
Proof.
  destruct (countRecords_sums_pages endlessService 1 5) as (total & C & T & _).
  - intros j Hj. assert (j = 0%nat) as -> by lia. reflexivity.
  - reflexivity.
  - lia.
  - rewrite C, T. reflexivity.
Defined.

(** ** Retries and accounting *)

Lemma timerDelay_pos (ms : option Z) : 1 <= timerDelay ms.
Proof.
  unfold timerDelay. destruct ms as [d|]; [|lia].
  destruct (Z.leb_spec 1 d); cbn [andb]; [|lia].
  destruct (d <=? TIMEOUT_MAX); lia.
Qed.

(** One turn of the attempt loop, answer by answer. *)
Lemma deleteAttempts_cons (remote : DeleteService) (attempt : Z)
      (later : list Z) (lastError : option RemoteError) (rkey : string)
      (w : World) :
  deleteAttempts remote (attempt :: later) lastError rkey w
  = let w1 := snd (deleteRecord remote rkey w) in
    match outcome (remote (requests w)) with
    | None => (Ok tt, w1)
    | Some err =>
        if isRateLimited err then
          deleteAttempts remote later (Some err) rkey
            (snd (sleep (Math_max (rateLimitWait err (clock w1)) 1000) w1))
        else if isNotFound err then (Ok tt, w1)
        else deleteAttempts remote later (Some err) rkey
               (if attempt <? MAX_RETRIES - 1
                then snd (sleep (Some (BASE_DELAY_MS * 2 ^ attempt)) w1)
                else w1)
    end.
Proof.
  cbn [deleteAttempts]. unfold bind, deleteRecord. cbv zeta.
  destruct (outcome (remote (requests w))) as [err|]; [|reflexivity].
  destruct (isRateLimited err); [reflexivity|].
  destruct (isNotFound err); [reflexivity|].
  destruct (attempt <? MAX_RETRIES - 1); reflexivity.
Qed.

(** The step of the induction over the attempts: the world the next
    attempt starts in has one request more and a clock no earlier. *)
Ltac next_attempt IH w :=
  match goal with
  | |- context [deleteAttempts ?remote ?later ?le ?rkey ?W] =>
      let W0 := fresh "W0" in
      set (W0 := W);
      assert (requests W0 = S (requests w)) by reflexivity;
      assert ((forall k, 0 <= latency (remote k)) -> clock w <= clock W0)
        by (let L := fresh "L" in
            intros L; specialize (L (requests w)); subst W0;
            cbn [clock snd sleep deleteRecord];
            try match goal with
                | |- context [timerDelay ?x] => pose proof (timerDelay_pos x)
                end; lia);
      destruct (IH le rkey W0) as (?B & _ & ?C); clearbody W0;
      cbn [List.length]; repeat split; intros; try lia;
      match goal with
      | L : forall k : nat, 0 <= latency (?r k) |- _ =>
          repeat match goal with
                 | H : (forall k : nat, 0 <= latency (r k)) -> _ |- _ =>
                     specialize (H L)
                 end; lia
      end
  end.

(** What one call of [deleteWithRetry] may do to the world: between one
    request and one per attempt, and the clock only moves forward when
    the service's answers take no negative time. *)
Lemma deleteAttempts_world (remote : DeleteService) (attempts : list Z) :
  forall lastError rkey w,
    let w' := snd (deleteAttempts remote attempts lastError rkey w) in
    (requests w <= requests w' <= requests w + List.length attempts)%nat
    /\ (attempts <> [] -> (requests w < requests w')%nat)
    /\ ((forall k, 0 <= latency (remote k)) -> clock w <= clock w').
Proof.
  induction attempts as [|a later IH]; intros lastError rkey w; cbv zeta.
  - cbn. repeat split; try lia. congruence.
  - rewrite deleteAttempts_cons. cbv zeta.
    destruct (outcome (remote (requests w))) as [err|] eqn:E.
    + destruct (isRateLimited err); [|destruct (isNotFound err)].
      * next_attempt IH w.
      * cbn. repeat split; try lia.
        intros L. specialize (L (requests w)). lia.
      * destruct (a <? MAX_RETRIES - 1); next_attempt IH w.
    + cbn. repeat split; try lia.
      intros L. specialize (L (requests w)). lia.
Qed.

(** X13: for one record [deleteWithRetry] sends at least one and at most
    three delete requests, whatever the service answers. *)
Theorem deleteWithRetry_request_bounds
        (remote : DeleteService) (rkey : string) (w : World) :
  let w' := snd (deleteWithRetry remote rkey w) in
  (requests w + 1 <= requests w' <= requests w + 3)%nat.
Proof.
  unfold deleteWithRetry. rewrite attemptsFrom_start.
  destruct (deleteAttempts_world remote [0; 1; 2] None rkey w) as (B & P & _).
  cbv zeta in *. cbn [List.length] in B.
  specialize (P ltac:(discriminate)). lia.
Qed.

(** An answer that is an error, neither a rate limit nor a not-found:
    back off unless this was the last attempt, then go on. *)
Lemma other_error_step (remote : DeleteService) (attempt : Z)
      (later : list Z) (lastError : option RemoteError) (rkey : string)
      (w : World) (err : RemoteError) :
  outcome (remote (requests w)) = Some err ->
  isRateLimited err = false ->
  isNotFound err = false ->
  exists w',
    deleteAttempts remote (attempt :: later) lastError rkey w
    = deleteAttempts remote later (Some err) rkey w'
    /\ requests w' = S (requests w)
    /\ sleepsOf (trace w')
       = sleepsOf (trace w)
         ++ (if attempt <? MAX_RETRIES - 1
             then [Some (BASE_DELAY_MS * 2 ^ attempt)] else []).
Proof.
  intros H Hr Hn. rewrite deleteAttempts_cons. cbv zeta.
  rewrite H, Hr, Hn.
  destruct (attempt <? MAX_RETRIES - 1); eexists; (split; [reflexivity|]);
    split; try reflexivity.
  cbn. now rewrite app_nil_r.
Qed.

(** X14: three answers in a row that are errors other than a rate limit
    or a not-found make [deleteWithRetry] throw the last of them after
    three requests, having backed off 1000 ms and then 2000 ms and not
    at all after the last attempt. *)
Theorem deleteWithRetry_backs_off
        (remote : DeleteService) (rkey : string) (w : World)
        (e1 e2 e3 : RemoteError) :
  outcome (remote (requests w)) = Some e1 ->
  isRateLimited e1 = false -> isNotFound e1 = false ->
  outcome (remote (S (requests w))) = Some e2 ->
  isRateLimited e2 = false -> isNotFound e2 = false ->
  outcome (remote (S (S (requests w)))) = Some e3 ->
  isRateLimited e3 = false -> isNotFound e3 = false ->
  let r := deleteWithRetry remote rkey w in
  fst r = Throw e3
  /\ requests (snd r) = (requests w + 3)%nat
  /\ sleepsOf (trace (snd r))
     = sleepsOf (trace w) ++ [Some 1000; Some 2000].
Proof.
  intros H1 R1 N1 H2 R2 N2 H3 R3 N3 r. subst r.
  unfold deleteWithRetry. rewrite attemptsFrom_start.
  destruct (other_error_step remote 0 [1; 2] None rkey w e1 H1 R1 N1)
    as (w1 & -> & Q1 & S1).
  rewrite <- Q1 in H2, H3.
  destruct (other_error_step remote 1 [2] (Some e1) rkey w1 e2 H2 R2 N2)
    as (w2 & -> & Q2 & S2).
  rewrite <- Q2 in H3.
  destruct (other_error_step remote 2 [] (Some e2) rkey w2 e3 H3 R3 N3)
    as (w3 & -> & Q3 & S3).
  cbn [deleteAttempts ret fst snd].
  rewrite Q3, Q2, Q1, S3, S2, S1. cbn. rewrite app_nil_r, <- app_assoc.
  repeat split. lia.
Qed.

Lemma deleteWithRetry_backs_off_witness :
  let r := deleteWithRetry alwaysFailing "3jzfcijpj2z2a" (newWorld 0) in
  fst r = Throw serverError
  /\ sleepsOf (trace (snd r)) = [Some 1000; Some 2000].
Proof.
  destruct (deleteWithRetry_backs_off alwaysFailing "3jzfcijpj2z2a" (newWorld 0)
              serverError serverError serverError
              eq_refl eq_refl eq_refl eq_refl eq_refl eq_refl
              eq_refl eq_refl eq_refl) as (T & _ & S).
  split; [exact T | exact S].
Defined.

(** X15: a failed first attempt followed by a success deletes the
    record: [deleteWithRetry] returns after two requests and one
    back-off of 1000 ms. *)
Theorem deleteWithRetry_recovers
        (remote : DeleteService) (rkey : string) (w : World)
        (err : RemoteError) :
  outcome (remote (requests w)) = Some err ->
  isRateLimited err = false -> isNotFound err = false ->
  outcome (remote (S (requests w))) = None ->
  let r := deleteWithRetry remote rkey w in
  fst r = Ok tt
  /\ requests (snd r) = (requests w + 2)%nat
  /\ sleepsOf (trace (snd r)) = sleepsOf (trace w) ++ [Some 1000].
Proof.
  intros H R N H2 r. subst r.
  unfold deleteWithRetry. rewrite attemptsFrom_start.
  destruct (other_error_step remote 0 [1; 2] None rkey w err H R N)
    as (w1 & -> & Q1 & S1).
  rewrite <- Q1 in H2.
  rewrite (deleteAttempts_success remote 1 [2] (Some err) rkey w1 H2).
  cbn [fst snd deleteRecord requests trace sleepsOf].
  rewrite Q1, S1. repeat split. lia.
Qed.

Lemma deleteWithRetry_recovers_witness :
  fst (deleteWithRetry failingOnce "3jzfcijpj2z2a" (newWorld 0)) = Ok tt.
Proof.
  destruct (deleteWithRetry_recovers failingOnce "3jzfcijpj2z2a" (newWorld 0)
              serverError eq_refl eq_refl eq_refl eq_refl) as (H & _).
  exact H.
Defined.

Lemma deleteWithRetry_world (remote : DeleteService) (rkey : string) (w : World) :
  let w' := snd (deleteWithRetry remote rkey w) in
  (requests w + 1 <= requests w' <= requests w + 3)%nat
  /\ ((forall k, 0 <= latency (remote k)) -> clock w <= clock w').
Proof.
  unfold deleteWithRetry. rewrite attemptsFrom_start.
  destruct (deleteAttempts_world remote [0; 1; 2] None rkey w) as (B & P & C).
  cbv zeta in *. cbn [List.length] in B.
  specialize (P ltac:(discriminate)). split; [lia | exact C].
Qed.

Lemma enforceRateLimit_clock (st : RateLimitState) (w : World) :
  clock w <= clock (snd (enforceRateLimit st w)).
Proof.
  unfold enforceRateLimit, bind, Date_now, ret.
  destruct (HOUR_MS <=? clock w - windowStart st); cbn [deletionsThisWindow];
    destruct (MAX_DELETIONS_PER_HOUR <=? _); cbn [snd sleep clock]; try lia;
    match goal with
    | |- context [timerDelay ?x] => pose proof (timerDelay_pos x)
    end; lia.
Qed.

(** One turn of the loop of [deleteRecords], in numbers. *)
Lemma deleteOne_accounting (remote : DeleteService) (p : Progress)
      (rkey : string) (w : World) :
  let x := deleteOne remote p rkey w in
  deleted (fst x) + failed (fst x) = deleted p + failed p + 1
  /\ deleted p <= deleted (fst x)
  /\ failed p <= failed (fst x)
  /\ Z.of_nat (List.length (errors (fst x))) - failed (fst x)
     = Z.of_nat (List.length (errors p)) - failed p
  /\ (requests w + 1 <= requests (snd x) <= requests w + 3)%nat
  /\ ((forall k, 0 <= latency (remote k)) -> clock w + 50 <= clock (snd x)).
Proof.
  cbv zeta. rewrite deleteOne_unfold. cbv zeta. cbn [fst snd].
  pose proof (enforceRateLimit_requests (rateLimit p) w) as Q.
  pose proof (enforceRateLimit_clock (rateLimit p) w) as K.
  set (w1 := snd (enforceRateLimit (rateLimit p) w)) in *.
  destruct (deleteWithRetry_world remote rkey w1) as (B & C). cbv zeta in B, C.
  set (d := deleteWithRetry remote rkey w1) in *.
  destruct (fst d) as [u|err];
    cbn [tally deleted failed errors sleep snd requests clock];
    rewrite ?length_app; cbn [List.length];
    repeat split; try lia;
    intros L; specialize (C L); change (timerDelay (Some 50)) with 50; lia.
Qed.

Lemma deleteLoop_accounting (remote : DeleteService) (rkeys : list string) :
  forall p w,
    let x := deleteLoop remote p rkeys w in
    let n := Z.of_nat (List.length rkeys) in
    deleted (fst x) + failed (fst x) = deleted p + failed p + n
    /\ deleted p <= deleted (fst x)
    /\ failed p <= failed (fst x)
    /\ Z.of_nat (List.length (errors (fst x))) - failed (fst x)
       = Z.of_nat (List.length (errors p)) - failed p
    /\ (requests w + List.length rkeys <= requests (snd x)
        <= requests w + 3 * List.length rkeys)%nat
    /\ ((forall k, 0 <= latency (remote k)) ->
        clock w + 50 * n <= clock (snd x)).
Proof.
  induction rkeys as [|rkey rkeys IH]; intros p w; cbv zeta.
  - cbn. repeat split; lia.
  - rewrite deleteLoop_cons.
    destruct (deleteOne_accounting remote p rkey w) as (A1 & A2 & A3 & A4 & A5 & A6).
    cbv zeta in *.
    set (x := deleteOne remote p rkey w) in *.
    destruct (IH (fst x) (snd x)) as (I1 & I2 & I3 & I4 & I5 & I6).
    cbv zeta in *. cbn [List.length].
    repeat split; try lia.
    intros L. specialize (A6 L). specialize (I6 L). lia.
Qed.

(** X16: [deleteRecords] accounts for every record exactly once: the
    deleted and the failed add up to the number of records, there is one
    error message per failed record, and between one and three delete
    requests were sent per record; a failed record does not stop the
    batch. *)
Theorem deleteRecords_accounting
        (remote : DeleteService) (records : list Records.RecordRef) (w : World) :
  let run := deleteRecords remote records w in
  let n := Z.of_nat (List.length records) in
  deleted (fst run) + failed (fst run) = n
  /\ 0 <= deleted (fst run)
  /\ 0 <= failed (fst run)
  /\ Z.of_nat (List.length (errors (fst run))) = failed (fst run)
  /\ (requests w + List.length records <= requests (snd run)
      <= requests w + 3 * List.length records)%nat.
Proof.
  cbv zeta. rewrite deleteRecords_unfold.
  match goal with
  | |- context [deleteLoop remote ?p ?ks w] =>
      destruct (deleteLoop_accounting remote ks p w) as (A1 & A2 & A3 & A4 & A5 & _)
  end.
  cbv zeta in *. rewrite length_map in *.
  cbn [deleted failed errors List.length] in *.
  repeat split; lia.
Qed.

(** X17: every turn of [deleteRecords] takes at least the 50 ms pause:
    when the service's answers take no negative time, the clock has
    moved on by at least 50 ms per record at the end. *)
Theorem deleteRecords_takes_time
        (remote : DeleteService) (records : list Records.RecordRef) (w : World) :
  (forall k, 0 <= latency (remote k)) ->
  clock w + 50 * Z.of_nat (List.length records)
  <= clock (snd (deleteRecords remote records w)).
Proof.
  intros L. rewrite deleteRecords_unfold.
  match goal with
  | |- context [deleteLoop remote ?p ?ks w] =>
      destruct (deleteLoop_accounting remote ks p w) as (_ & _ & _ & _ & _ & C)
  end.
  cbv zeta in C. rewrite length_map in C. exact (C L).
Qed.

Lemma deleteRecords_takes_time_witness :
  0 + 50 * 2
  <= clock (snd (deleteRecords alwaysFailing
                   [recordRef "3jzfcijpj2z2a"; recordRef "3jzfcihpj2z22"]
                   (newWorld 0))).
Proof.
  apply (deleteRecords_takes_time alwaysFailing
           [recordRef "3jzfcijpj2z2a"; recordRef "3jzfcihpj2z22"] (newWorld 0)).
  intros k. cbn. lia.
Defined.

(** X18: after the quota check the window is current and has room: it
    started less than an hour before the clock's time, not after it if
    it had not before, and fewer than 4500 deletions are counted in it;
    the check sends no request. *)
Theorem enforceRateLimit_window (st : RateLimitState) (w : World) :
  let st' := fst (enforceRateLimit st w) in
  let w' := snd (enforceRateLimit st w) in
  clock w' - windowStart st' < HOUR_MS
  /\ (windowStart st <= clock w -> windowStart st' <= clock w')
  /\ deletionsThisWindow st' < 4500
  /\ requests w' = requests w.
Proof.
  cbv zeta.
  split; [|split; [|split;
    [apply enforceRateLimit_below | apply enforceRateLimit_requests]]].
  - destruct (enforceRateLimit_cases st w) as (Reset & Idle & Full).
    destruct (Z.le_gt_cases HOUR_MS (clock w - windowStart st)) as [H|H].
    + rewrite (Reset H). cbn. unfold HOUR_MS. lia.
    + destruct (Z.lt_ge_cases (deletionsThisWindow st) MAX_DELETIONS_PER_HOUR)
        as [C|C].
      * rewrite (Idle ltac:(lia) C). cbn [fst snd]. lia.
      * destruct (Full ltac:(lia) C) as (-> & _). cbn [fst snd windowStart].
        unfold HOUR_MS. lia.
  - intros Hw. destruct (enforceRateLimit_cases st w) as (Reset & Idle & Full).
    destruct (Z.le_gt_cases HOUR_MS (clock w - windowStart st)) as [H|H].
    + rewrite (Reset H). cbn. lia.
    + destruct (Z.lt_ge_cases (deletionsThisWindow st) MAX_DELETIONS_PER_HOUR)
        as [C|C].
      * rewrite (Idle ltac:(lia) C). cbn [fst snd]. lia.
      * destruct (Full ltac:(lia) C) as (-> & _). cbn [fst snd windowStart]. lia.
Qed.

(** X19: the wait after a rate-limit answer is never below a second when
    it is a number; it is exactly a second when the hinted reset time
    has passed already; and a hint that is there but does not start with
    a number makes the wait [NaN], which no minimum applies to. *)
Theorem rateLimitWait_minimum (err : RemoteError) (now : Z) :
  (forall d, Math_max (rateLimitWait err now) 1000 = Some d -> 1000 <= d)
  /\ (forall hint secs,
        ratelimit_reset err = Some hint -> hint <> EmptyString ->
        parseInt10 hint = Some secs -> secs * 1000 <= now ->
        Math_max (rateLimitWait err now) 1000 = Some 1000)
  /\ (forall hint,
        ratelimit_reset err = Some hint -> hint <> EmptyString ->
        parseInt10 hint = None ->
        Math_max (rateLimitWait err now) 1000 = None
        /\ timerDelay (Math_max (rateLimitWait err now) 1000) = 1).
Proof.
  repeat split.
  - intros d. unfold Math_max. destruct (rateLimitWait err now) as [v|];
      [|discriminate].
    cbn [option_map]. intros H. injection H as <-. lia.
  - intros hint secs Hh Hne Hp Hpast. unfold rateLimitWait. rewrite Hh.
    destruct hint as [|c hint]; [congruence|]. cbn [truthy]. rewrite Hp.
    cbn [option_map Math_max]. f_equal. lia.
  - unfold rateLimitWait. rewrite H.
    destruct hint as [|c hint]; [congruence|]. cbn [truthy]. now rewrite H1.
  - unfold rateLimitWait. rewrite H.
    destruct hint as [|c hint]; [congruence|]. cbn [truthy]. now rewrite H1.
Qed.

Lemma rateLimitWait_minimum_witness :
  Math_max (rateLimitWait (rateLimited (Some "1700000000")) 1700000000500) 1000
  = Some 1000
  /\ Math_max (rateLimitWait (rateLimited (Some "soon")) 1700000000500) 1000
     = None.
Proof.
  destruct (rateLimitWait_minimum (rateLimited (Some "1700000000"))
              1700000000500) as (_ & P & _).
  destruct (rateLimitWait_minimum (rateLimited (Some "soon"))
              1700000000500) as (_ & _ & N).
  split.
  - apply (P "1700000000" 1700000000); [reflexivity | discriminate
                                       | reflexivity | lia].
  - apply (N "soon"); [reflexivity | discriminate | reflexivity].
Defined.

(** ** Blocks *)

Lemma gapsWithin_snoc (g : Z) (l : list Rec) (p r : Rec) :
  gapsWithin g (l ++ [p; r])
  = gapsWithin g (l ++ [p]) && (timestamp r - timestamp p <=? g).
Proof.
  induction l as [|x l IH].
  - cbn. now rewrite andb_true_r.
  - destruct l as [|y l].
    + cbn. now rewrite !andb_true_r.
    + cbn [app gapsWithin] in *. rewrite IH. now rewrite andb_assoc.
Qed.

(** The blocks the pass emits, when the block in progress [prev :: cur]
    (newest first) is a run within the gap: each is a run within the
    gap, is not empty, and is a stretch of the records in order. *)
Lemma pass_blocks (g m : Z) (rest : list Rec) :
  forall prev cur next,
    gapsWithin g (rev (prev :: cur)) = true ->
    Forall (fun b =>
              gapsWithin g (block b) = true
              /\ block b <> []
              /\ exists before after,
                   rev (prev :: cur) ++ rest = before ++ block b ++ after)
           (pass g m prev (prev :: cur) next rest).
Proof.
  assert (E : forall prev cur next rest',
             gapsWithin g (rev (prev :: cur)) = true ->
             Forall (fun b =>
                       gapsWithin g (block b) = true
                       /\ block b <> []
                       /\ exists before after,
                            rev (prev :: cur) ++ rest'
                            = before ++ block b ++ after)
                    (emit m next (prev :: cur))).
  { intros prev cur next rest' H. unfold emit.
    destruct (m <=? len (prev :: cur)); constructor; [|constructor].
    cbn [block]. repeat split; [exact H | |].
    - cbn [rev]. intros N. apply app_eq_nil in N as [_ N]. discriminate.
    - exists [], rest'. reflexivity. }
  induction rest as [|r rest IH]; intros prev cur next H; cbn [pass].
  - apply E, H.
  - destruct (Z.leb_spec (timestamp r - timestamp prev) g) as [Hg|Hg].
    + assert (H' : gapsWithin g (rev (r :: prev :: cur)) = true).
      { cbn [rev] in *. rewrite <- app_assoc. cbn [app].
        rewrite gapsWithin_snoc, H. apply Z.leb_le in Hg. now rewrite Hg. }
      specialize (IH r (prev :: cur) next H').
      eapply Forall_impl; [|exact IH].
      intros b (G & N & before & after & Eq). repeat split; try assumption.
      exists before, after. rewrite <- Eq. cbn [rev].
      now rewrite <- !app_assoc.
    + apply Forall_app. split; [apply E, H|].
      specialize (IH r [] (if m <=? len (prev :: cur) then next + 1 else next)
                     eq_refl).
      eapply Forall_impl; [|exact IH].
      intros b (G & N & before & after & Eq). repeat split; try assumption.
      exists (rev (prev :: cur) ++ before), after.
      rewrite <- app_assoc. f_equal. exact Eq.
Qed.

Lemma findBlocks_blocks (records : list Rec) (gap minBlock : Z) :
  Forall (fun b =>
            gapsWithin (gap * 1000) (block b) = true
            /\ block b <> []
            /\ exists before after, records = before ++ block b ++ after)
         (findBlocks records gap minBlock).
Proof.
  rewrite findBlocks_singlePass.
  destruct records as [|first rest]; [constructor|].
  apply (pass_blocks (gap * 1000) minBlock rest first [] 1). reflexivity.
Qed.

(** X20: within every reported block each record is at most the gap
    after the one before it, and the block is a stretch of consecutive
    records of the input, in the input's order. *)
Theorem findBlocks_runs (records : list Rec) (gap minBlock : Z) :
  Forall (fun b =>
            gapsWithin (gap * 1000) (block b) = true
            /\ exists before after, records = before ++ block b ++ after)
         (findBlocks records gap minBlock).
Proof.
  eapply Forall_impl; [|apply findBlocks_blocks].
  intros b (G & _ & S). split; assumption.
Qed.

Lemma span_within (g : Z) (b : list Rec) (first : Rec) :
  gapsWithin g (first :: b) = true ->
  timestamp (last (first :: b) noRec) - timestamp first <= g * len b.
Proof.
  revert first. induction b as [|y b IH]; intros first H.
  - cbn. lia.
  - cbn [gapsWithin] in H. apply andb_true_iff in H as [H1 H2].
    apply Z.leb_le in H1. specialize (IH y H2).
    change (last (first :: y :: b) noRec) with (last (y :: b) noRec).
    unfold len in *. cbn [List.length]. lia.
Qed.

(** X21: the span of a reported block is at most the gap times the
    number of steps in it, so the average gap printed for a block never
    exceeds the threshold. *)
Theorem findBlocks_span (records : list Rec) (gap minBlock : Z) :
  Forall (fun b => spanMs (block b) <= gap * 1000 * (len (block b) - 1))
         (findBlocks records gap minBlock).
Proof.
  eapply Forall_impl; [|apply findBlocks_blocks].
  intros b (G & N & _). destruct (block b) as [|first rest]; [congruence|].
  unfold spanMs. cbn [hd].
  pose proof (span_within _ _ _ G) as S.
  unfold len in *. cbn [List.length]. lia.
Qed.

(** X22: with fewer records than the minimum block size nothing is
    reported. *)
Theorem findBlocks_too_few (records : list Rec) (gap minBlock : Z) :
  len records < minBlock ->
  findBlocks records gap minBlock = [].
Proof.
  intros H.
  pose proof (findBlocks_blocks records gap minBlock) as B.
  assert (S : Forall (fun b => minBlock <= len (block b))
                     (findBlocks records gap minBlock)).
  { rewrite findBlocks_singlePass. destruct records; [constructor|].
    apply pass_sizes. }
  destruct (findBlocks records gap minBlock) as [|b bs]; [reflexivity|].
  destruct (Forall_inv B) as (_ & _ & before & after & Eq).
  pose proof (Forall_inv S) as Hsize. cbn beta in Hsize.
  apply (f_equal (@List.length _)) in Eq. rewrite !length_app in Eq.
  unfold len in *. lia.
Qed.

Lemma findBlocks_too_few_witness :
  findBlocks (map at_ [0; 1000; 2000]) 45 10 = [].
Proof.
  apply (findBlocks_too_few (map at_ [0; 1000; 2000]) 45 10).
  cbn. lia.
Defined.

Lemma pass_all (g m : Z) (rest : list Rec) :
  forall prev cur next,
    1 <= len cur -> m <= 1 ->
    List.concat (map block (pass g m prev cur next rest)) = rev cur ++ rest.
Proof.
  assert (E : forall next cur, 1 <= len cur -> m <= 1 ->
                               emit m next cur = [{| block := rev cur; index := next |}]).
  { intros next cur H1 H2. unfold emit.
    destruct (Z.leb_spec m (len cur)); [reflexivity | lia]. }
  induction rest as [|r rest IH]; intros prev cur next H1 H2; cbn [pass].
  - rewrite E by assumption. cbn. now rewrite !app_nil_r.
  - destruct (timestamp r - timestamp prev <=? g).
    + rewrite IH; [|unfold len in *; cbn [List.length]; lia | assumption].
      cbn [rev]. now rewrite <- app_assoc.
    + rewrite E by assumption. cbn [app map List.concat block].
      rewrite IH; [reflexivity | cbn; lia | assumption].
Qed.

(** X23: with a minimum block size of 1 (or less) every record is
    reported, in exactly one block: the blocks laid end to end are the
    input. *)
Theorem findBlocks_covers (records : list Rec) (gap minBlock : Z) :
  minBlock <= 1 ->
  List.concat (map block (findBlocks records gap minBlock)) = records.
Proof.
  intros H. rewrite findBlocks_singlePass.
  destruct records as [|first rest]; [reflexivity|].
  cbn [singlePass]. rewrite pass_all; [reflexivity | cbn; lia | assumption].
Qed.

Lemma findBlocks_covers_witness :
  List.concat (map block (findBlocks (map at_ [0; 1000; 90000]) 45 1))
  = map at_ [0; 1000; 90000].
Proof.
  apply (findBlocks_covers (map at_ [0; 1000; 90000]) 45 1). lia.
Defined.

Lemma pass_one_run (g m : Z) (rest : list Rec) :
  forall prev cur next,
    gapsWithin g (prev :: rest) = true ->
    pass g m prev cur next rest = emit m next (rev rest ++ cur).
Proof.
  induction rest as [|r rest IH]; intros prev cur next H; cbn [pass].
  - reflexivity.
  - cbn [gapsWithin] in H. apply andb_true_iff in H as [H1 H2].
    rewrite H1, (IH r (r :: cur) next H2). cbn [rev].
    now rewrite <- app_assoc.
Qed.

(** X24: when every record is within the gap of the one before it and
    there are at least the minimum number of them, the whole input is
    reported as the one block, number 1. *)
Theorem findBlocks_one_run (records : list Rec) (gap minBlock : Z) :
  records <> [] ->
  gapsWithin (gap * 1000) records = true ->
  minBlock <= len records ->
  findBlocks records gap minBlock = [{| block := records; index := 1 |}].
Proof.
  intros N G M. rewrite findBlocks_singlePass.
  destruct records as [|first rest]; [congruence|].
  cbn [singlePass]. rewrite (pass_one_run _ _ _ _ _ _ G). unfold emit.
  assert (L : len (rev rest ++ [first]) = len (first :: rest)).
  { unfold len. rewrite length_app, length_rev. cbn [List.length]. lia. }
  rewrite L. destruct (Z.leb_spec minBlock (len (first :: rest))); [|lia].
  rewrite rev_app_distr, rev_involutive. reflexivity.
Qed.

Lemma findBlocks_one_run_witness :
  findBlocks (map at_ [0; 30000; 60000]) 45 3
  = [{| block := map at_ [0; 30000; 60000]; index := 1 |}].
Proof.
  apply (findBlocks_one_run (map at_ [0; 30000; 60000]) 45 3);
    [discriminate | reflexivity | cbn; lia].
Defined.

(** ** Command lines *)

Lemma parseArg_positive (acc a : CliArgs) (arg : string) :
  0 < gap acc -> 0 < minBlock acc ->
  Analyze.parseArg acc arg = Returns a ->
  0 < gap a /\ 0 < minBlock a.
Proof.
  intros Hg Hm. unfold Analyze.parseArg.
  destruct (startsWith arg "--gap=").
  - destruct (parseInt10 (sliceFrom 6 arg)) as [g|]; [|discriminate].
    destruct (Z.leb_spec g 0) as [Le|Gt]; [discriminate|].
    intros Eq. injection Eq as <-. cbn. lia.
  - destruct (startsWith arg "--min-block=").
    + destruct (parseInt10 (sliceFrom 12 arg)) as [m|]; [|discriminate].
      destruct (Z.leb_spec m 0) as [Le|Gt]; [discriminate|].
      intros Eq. injection Eq as <-. cbn. lia.
    + intros Eq. injection Eq as <-. lia.
Qed.

Lemma parseArg_exit (acc : CliArgs) (arg : string) (code : Z) :
  Analyze.parseArg acc arg = Exits code -> code = 1.
Proof.
  unfold Analyze.parseArg.
  destruct (startsWith arg "--gap=").
  - destruct (parseInt10 (sliceFrom 6 arg)) as [g|]; [|congruence].
    destruct (g <=? 0); congruence.
  - destruct (startsWith arg "--min-block="); [|discriminate].
    destruct (parseInt10 (sliceFrom 12 arg)) as [m|]; [|congruence].
    destruct (m <=? 0); congruence.
Qed.

(** X25: the analyzer's [parseArgs] never hands out a gap or a minimum
    block size that is not positive: it returns both above zero (45 and
    10 unless given), or the process exits with code 1. *)
Theorem analyze_parseArgs_positive (args : list string) :
  match Analyze.parseArgs args with
  | Returns a => 0 < gap a /\ 0 < minBlock a
  | Exits code => code = 1
  end
  /\ Analyze.parseArgs [] = Returns {| gap := 45; minBlock := 10 |}.
Proof.
  split; [|reflexivity]. unfold Analyze.parseArgs.
  assert (G : forall acc, 0 < gap acc -> 0 < minBlock acc ->
                match parseArgsFrom acc args with
                | Returns a => 0 < gap a /\ 0 < minBlock a
                | Exits code => code = 1
                end).
  { induction args as [|arg args IH]; intros acc Hg Hm; cbn [parseArgsFrom].
    - split; assumption.
    - destruct (Analyze.parseArg acc arg) as [acc'|code] eqn:E.
      + destruct (parseArg_positive acc acc' arg Hg Hm E). now apply IH.
      + now apply parseArg_exit in E. }
  apply G; cbn; lia.
Qed.

Lemma parseArgsFrom_ignores (args : list string) :
  forall acc,
    parseArgsFrom acc args = parseArgsFrom acc (filter isOption args).
Proof.
  induction args as [|arg args IH]; intros acc; [reflexivity|].
  cbn [filter]. destruct (isOption arg) eqn:E; cbn [parseArgsFrom].
  - destruct (Analyze.parseArg acc arg); [apply IH | reflexivity].
  - unfold isOption in E. apply orb_false_iff in E as [E1 E2].
    unfold Analyze.parseArg. rewrite E1, E2. apply IH.
Qed.

(** X26: arguments that start with neither [--gap=] nor [--min-block=]
    play no part in what the analyzer's [parseArgs] does. *)
Theorem analyze_parseArgs_ignores_others (args : list string) :
  Analyze.parseArgs args = Analyze.parseArgs (filter isOption args).
Proof. apply parseArgsFrom_ignores. Qed.




Lemma search_fold_no_filter (args : list string) :
  forall acc,
    forallb (fun arg => negb (Search.isFilter arg)) args = true ->
    let parsed := fold_left Search.parseArg args acc in
    Search.artistName parsed = Search.artistName acc
    /\ Search.albumName parsed = Search.albumName acc
    /\ Search.trackName parsed = Search.trackName acc.
Proof.
  induction args as [|arg args IH]; intros acc H; cbv zeta; [now cbn|].
  cbn [forallb] in H. apply andb_true_iff in H as [Ha Hr].
  cbn [fold_left]. destruct (IH (Search.parseArg acc arg) Hr) as (-> & -> & ->).
  apply negb_true_iff in Ha. unfold Search.isFilter in Ha.
  apply orb_false_iff in Ha as [Ha E3]. apply orb_false_iff in Ha as [E1 E2].
  unfold Search.parseArg. rewrite E1, E2, E3.
  destruct (arg =? "--count")%string; now cbn.
Qed.

(** X28: the search's [parseArgs] returns only with a filter to search
    by: one of artist, album and track name is given and not empty.
    Without an argument that is a filter, for instance with [--count]
    alone, the process exits with code 1. *)
Theorem search_parseArgs_needs_filter (args : list string) :
  match Search.parseArgs args with
  | Returns a =>
      Search.missing (Search.artistName a) = false
      \/ Search.missing (Search.albumName a) = false
      \/ Search.missing (Search.trackName a) = false
  | Exits code => code = 1
  end
  /\ (forallb (fun arg => negb (Search.isFilter arg)) args = true ->
      Search.parseArgs args = Exits 1).
Proof.
  split.
  - unfold Search.parseArgs. cbv zeta.
    set (parsed := fold_left Search.parseArg args _).
    destruct (Search.missing (Search.artistName parsed)) eqn:E1;
      [|now left].
    destruct (Search.missing (Search.albumName parsed)) eqn:E2;
      [|now right; left].
    destruct (Search.missing (Search.trackName parsed)) eqn:E3;
      [reflexivity|].
    now right; right.
  - intros H. unfold Search.parseArgs. cbv zeta.
    match goal with
    | |- context [fold_left Search.parseArg args ?acc] =>
        destruct (search_fold_no_filter args acc H) as (-> & -> & ->)
    end.
    reflexivity.
Qed.

Lemma search_parseArgs_needs_filter_witness :
  Search.parseArgs ["--count"; "--artistName="] = Exits 1.
Proof.
  destruct (search_parseArgs_needs_filter ["--count"; "--artistName="])
    as [H _].
  destruct (Search.parseArgs ["--count"; "--artistName="]) as [a|code] eqn:E;
    [discriminate E | now rewrite H].
Defined.

(** ** The run of index.ts *)

Lemma skipn_nth {A} (l : list A) (d : A) :
  forall a, (a < List.length l)%nat ->
            skipn a l = nth a l d :: skipn (S a) l.
Proof.
  induction l as [|x l IH]; intros a H; [simpl in H; lia|].
  destruct a as [|a]; [reflexivity|].
  cbn [skipn nth]. apply IH. simpl in H. lia.
Qed.

Lemma map_nth_seq {A} (l : list A) (d : A) (k : nat) :
  forall a, (a + k <= List.length l)%nat ->
            map (fun i => nth i l d) (seq a k) = firstn k (skipn a l).
Proof.
  induction k as [|k IH]; intros a H; [reflexivity|].
  cbn [seq map]. rewrite (skipn_nth l d a) by lia.
  cbn [firstn]. f_equal. apply IH. lia.
Qed.

Lemma shown_rkeys (records : list RecordRef) (a k : nat) :
  (a + k <= List.length records)%nat ->
  map (fun i => Index.Shown (Index.rkeyAt records i)) (seq a k)
  = map (fun r => Index.Shown (ref_rkey r)) (firstn k (skipn a records)).
Proof.
  intros H. unfold Index.rkeyAt.
  rewrite <- (map_nth_seq records Index.noRef k a H), map_map. reflexivity.
Qed.

(** X29: the preview before the confirmation shows every record once
    and in order when there are at most 15; of more it shows the first
    10 and the last 5 and counts the ones left out between them. *)
Theorem preview_shows (records : list RecordRef) :
  let n := List.length records in
  ((n <= 15)%nat ->
   Index.preview records = map (fun r => Index.Shown (ref_rkey r)) records)
  /\ ((15 < n)%nat ->
      Index.preview records
      = map (fun r => Index.Shown (ref_rkey r)) (firstn 10 records)
        ++ Index.More (Z.of_nat n - 15)
        :: map (fun r => Index.Shown (ref_rkey r)) (skipn (n - 5) records)).
Proof.
  cbv zeta. unfold Index.preview. cbv zeta. split; intros H.
  - destruct (Nat.ltb_spec 15 (List.length records)); [lia|].
    destruct (Nat.ltb_spec 10 (List.length records)).
    + rewrite Nat.min_r by lia. rewrite !shown_rkeys by lia.
      change (skipn 0 records) with records.
      rewrite <- map_app. f_equal.
      rewrite (firstn_all2 (n := List.length records - 10) (skipn 10 records))
        by (rewrite length_skipn; lia).
      apply firstn_skipn.
    + rewrite Nat.min_l by lia. rewrite shown_rkeys by lia.
      change (skipn 0 records) with records.
      now rewrite firstn_all, app_nil_r.
  - destruct (Nat.ltb_spec 15 (List.length records)); [|lia].
    rewrite Nat.min_r by lia. rewrite !shown_rkeys by lia.
    change (skipn 0 records) with records.
    rewrite (firstn_all2 (n := 5) (skipn (List.length records - 5) records))
      by (rewrite length_skipn; lia).
    reflexivity.
Qed.

Lemma preview_shows_witness :
  Index.preview (map recordRef ["3jzfcihpj2z22"; "3jzfcijpj2z2a"])
  = [Index.Shown "3jzfcihpj2z22"; Index.Shown "3jzfcijpj2z2a"].
Proof.
  destruct (preview_shows (map recordRef ["3jzfcihpj2z22"; "3jzfcijpj2z2a"]))
    as [H _].
  apply H. cbn. lia.
Defined.

(** X30: the exit code of a deletion run is 0 exactly when every record
    was deleted, and 1 otherwise. *)
Theorem exitCode_zero_iff_all_deleted
        (remote : DeleteService) (records : list RecordRef) (w : World) :
  let result := fst (deleteRecords remote records w) in
  (Index.exitCode result = 0
   <-> deleted result = Z.of_nat (List.length records))
  /\ (Index.exitCode result = 0 \/ Index.exitCode result = 1).
Proof.
  cbv zeta. rewrite deleteRecords_unfold.
  match goal with
  | |- context [deleteLoop remote ?p ?ks w] =>
      destruct (deleteLoop_accounting remote ks p w) as (A1 & A2 & A3 & _)
  end.
  cbv zeta in *. rewrite length_map in *. cbn [deleted failed] in *.
  unfold Index.exitCode.
  match goal with
  | |- context [0 <? ?f] => destruct (Z.ltb_spec 0 f)
  end; split; try (split; intros; lia); auto.
Qed.

(** * Identifiers as JS strings *)

Lemma utf16_alphabet_ascii :
  Forall (fun u => (u < 128)%N) TidUtf16.B32_CHARS.
Proof.
  apply Forall_forall. intros u H.
  assert (A : forallb (fun u => (u <? 128)%N) TidUtf16.B32_CHARS = true)
    by reflexivity.
  rewrite forallb_forall in A. apply N.ltb_lt. now apply A.
Qed.

Lemma utf16_startsWith_units (needle : TidUtf16.ustring) :
  forall s,
    TidUtf16.startsWith s needle = true ->
    Forall (fun u => (u < 128)%N) s ->
    Forall (fun u => (u < 128)%N) needle.
Proof.
  induction needle as [|n needle IH]; intros s H F; [constructor|].
  destruct s as [|c s]; [discriminate|]. cbn [TidUtf16.startsWith] in H.
  apply andb_true_iff in H as [Hc Hs]. apply N.eqb_eq in Hc. subst n.
  inversion F as [|? ? Fc Fs]; subst. constructor; [exact Fc|].
  now apply (IH s).
Qed.

(** Text with a unit outside ASCII occurs nowhere in the alphabet. *)
Lemma utf16_indexOf_non_ascii (needle : TidUtf16.ustring) (x : N) :
  In x needle -> (128 <= x)%N ->
  TidUtf16.indexOf TidUtf16.B32_CHARS needle = -1.
Proof.
  intros Hin Hx. unfold TidUtf16.indexOf. generalize 0.
  pose proof utf16_alphabet_ascii as F. revert F.
  generalize TidUtf16.B32_CHARS as s.
  assert (N : forall s, Forall (fun u => (u < 128)%N) s ->
                        TidUtf16.startsWith s needle = false).
  { intros s F. destruct (TidUtf16.startsWith s needle) eqn:E; [|reflexivity].
    pose proof (utf16_startsWith_units needle s E F) as G.
    rewrite Forall_forall in G. specialize (G x Hin). lia. }
  induction s as [|c s IH]; intros F i; cbn [TidUtf16.indexOf_from];
    rewrite (N _ F); [reflexivity|].
  apply IH. now inversion F.
Qed.

(** Where each ASCII character, lower-cased, stands in the alphabet. *)
Lemma utf16_indexOf_ascii (u : N) :
  (u < 128)%N ->
  TidUtf16.indexOf TidUtf16.B32_CHARS [TidUtf16.lowerAscii u]
  = if TidUtf16.accepted u then TidUtf16.symbol_value u else -1.
Proof.
  intros H.
  assert (A : forallb
                (fun k =>
                   TidUtf16.indexOf TidUtf16.B32_CHARS
                     [TidUtf16.lowerAscii (N.of_nat k)]
                   =? (if TidUtf16.accepted (N.of_nat k)
                       then TidUtf16.symbol_value (N.of_nat k) else -1))
                (seq 0 128) = true) by (vm_compute; reflexivity).
  rewrite forallb_forall in A. specialize (A (N.to_nat u)).
  rewrite N2Nat.id in A. apply Z.eqb_eq, A, in_seq. lia.
Qed.

Lemma utf16_symbol_value_range (u : N) :
  TidUtf16.accepted u = true -> 0 <= TidUtf16.symbol_value u < 32.
Proof.
  unfold TidUtf16.accepted, TidUtf16.symbol_value. intros H. cbv zeta.
  repeat (apply orb_true_iff in H as [H|H]);
    try (apply andb_true_iff in H as [H1 H2]; apply N.leb_le in H1, H2);
    try apply N.eqb_eq in H;
    repeat match goal with
           | |- context [?a <=? ?b] => destruct (Z.leb_spec a b)
           end; lia.
Qed.

Section Utf16Decoding.
Variable toLowerCase : TidUtf16.ustring -> TidUtf16.ustring.
Hypothesis lower : TidUtf16.jsLowerCase toLowerCase.

Lemma utf16_decodeChar_unit (u : N) :
  TidUtf16.decodeChar toLowerCase [u]
  = if TidUtf16.accepted u then Ok (TidUtf16.symbol_value u)
    else Throw (TidUtf16.InvalidBase32Character [u]).
Proof.
  destruct lower as (L1 & L2 & L3 & L4 & _). unfold TidUtf16.decodeChar.
  destruct (N.lt_ge_cases u 128) as [Ha|Ha].
  - assert (E : toLowerCase [u] = [TidUtf16.lowerAscii u]).
    { unfold TidUtf16.lowerAscii.
      destruct (N.leb_spec 65 u), (N.leb_spec u 90); cbn [andb];
        try (apply L2; lia). apply L1. lia. }
    rewrite E, (utf16_indexOf_ascii u Ha). cbv zeta.
    destruct (TidUtf16.accepted u) eqn:A; [|reflexivity].
    pose proof (utf16_symbol_value_range u A).
    destruct (Z.eqb_spec (TidUtf16.symbol_value u) (-1)); [lia | reflexivity].
  - destruct (N.eq_dec u 8490) as [->|Hk].
    + rewrite L3. reflexivity.
    + destruct (L4 u Ha Hk) as (x & Hin & Hx).
      rewrite (utf16_indexOf_non_ascii _ x Hin Hx). cbv zeta. cbn [Z.eqb].
      replace (TidUtf16.accepted u) with false; [reflexivity|].
      symmetry. unfold TidUtf16.accepted.
      destruct (N.leb_spec u 55), (N.leb_spec u 122), (N.leb_spec u 90),
        (N.eqb_spec u 8490); rewrite ?andb_false_r; cbn [orb];
        try reflexivity; lia.
Qed.

Lemma utf16_decodeChar_pair (hi lo : N) :
  TidUtf16.isHighSurrogate hi = true -> TidUtf16.isLowSurrogate lo = true ->
  TidUtf16.decodeChar toLowerCase [hi; lo]
  = Throw (TidUtf16.InvalidBase32Character [hi; lo]).
Proof.
  intros Hh Hl. destruct lower as (_ & _ & _ & _ & L5).
  destruct (L5 hi lo Hh Hl) as (x & Hin & Hx). unfold TidUtf16.decodeChar.
  now rewrite (utf16_indexOf_non_ascii _ x Hin Hx).
Qed.

Lemma utf16_accepted_not_surrogate (u : N) :
  TidUtf16.accepted u = true -> TidUtf16.isHighSurrogate u = false.
Proof.
  unfold TidUtf16.accepted, TidUtf16.isHighSurrogate. intros H.
  apply andb_false_iff.
  repeat (apply orb_true_iff in H as [H|H]);
    try (apply andb_true_iff in H as [H1 H2]; apply N.leb_le in H1, H2);
    try apply N.eqb_eq in H; left; apply N.leb_gt; lia.
Qed.

Lemma utf16_codePoints_unit (u : N) (rest : TidUtf16.ustring) :
  TidUtf16.isHighSurrogate u = false ->
  TidUtf16.codePoints (u :: rest) = [u] :: TidUtf16.codePoints rest.
Proof.
  intros H. cbn [TidUtf16.codePoints]. rewrite H.
  destruct rest; reflexivity.
Qed.

(** The loop over the characters of [s]: it ends with the big-endian
    value when every unit is an accepted character, and throws at a
    character that is not one otherwise. *)
Lemma utf16_decodeLoop (n : nat) :
  forall s acc,
    (List.length s <= n)%nat ->
    (forallb TidUtf16.accepted s = true ->
     TidUtf16.decodeLoop toLowerCase acc (TidUtf16.codePoints s)
     = Ok (acc * 32 ^ Z.of_nat (List.length s)
           + Tid.big_endian (map TidUtf16.symbol_value s)))
    /\ (forallb TidUtf16.accepted s = false ->
        exists ch,
          TidUtf16.decodeLoop toLowerCase acc (TidUtf16.codePoints s)
          = Throw (TidUtf16.InvalidBase32Character ch)
          /\ In ch (TidUtf16.codePoints s)
          /\ (forall u, ch = [u] -> TidUtf16.accepted u = false)).
Proof.
  induction n as [|n IH]; intros s acc Hlen.
  - destruct s; [|simpl in Hlen; lia]. split; [|discriminate].
    intros _. cbn. f_equal. lia.
  - destruct s as [|u rest]; [split; [intros _; cbn; f_equal; lia | discriminate]|].
    cbn [List.length] in Hlen.
    destruct (TidUtf16.accepted u) eqn:A.
    + rewrite (utf16_codePoints_unit u rest (utf16_accepted_not_surrogate u A)).
      cbn [TidUtf16.decodeLoop forallb]. rewrite utf16_decodeChar_unit, A.
      cbn [andb]. destruct (IH rest (acc * 32 + TidUtf16.symbol_value u)
                              ltac:(lia)) as [Iok Ithrow].
      split.
      * intros H. rewrite (Iok H). f_equal.
        cbn [List.length map Tid.big_endian]. rewrite length_map.
        rewrite Nat2Z.inj_succ, Z.pow_succ_r by lia. ring.
      * intros H. destruct (Ithrow H) as (ch & E & I & Na).
        exists ch. repeat split; [exact E | now right | exact Na].
    + split; [cbn [forallb]; rewrite A; discriminate|]. intros _.
      destruct (TidUtf16.isHighSurrogate u) eqn:Hh.
      * destruct rest as [|lo rest'].
        -- exists [u]. cbn [TidUtf16.codePoints TidUtf16.decodeLoop].
           rewrite utf16_decodeChar_unit, A. repeat split; [now left|].
           intros u' Eu. now injection Eu as <-.
        -- cbn [TidUtf16.codePoints]. rewrite Hh. cbn [andb].
           destruct (TidUtf16.isLowSurrogate lo) eqn:Hl.
           ++ exists [u; lo]. cbn [TidUtf16.decodeLoop].
              rewrite (utf16_decodeChar_pair u lo Hh Hl).
              repeat split; [now left | discriminate].
           ++ exists [u]. cbn [TidUtf16.decodeLoop].
              rewrite utf16_decodeChar_unit, A. repeat split; [now left|].
              intros u' Eu. now injection Eu as <-.
      * rewrite (utf16_codePoints_unit u rest Hh). exists [u].
        cbn [TidUtf16.decodeLoop]. rewrite utf16_decodeChar_unit, A.
        repeat split; [now left|].
        intros u' Eu. now injection Eu as <-.
Qed.

End Utf16Decoding.

Lemma utf16_tidTimestamp_spec
      (toLowerCase : TidUtf16.ustring -> TidUtf16.ustring)
      (lower : TidUtf16.jsLowerCase toLowerCase) (tid : TidUtf16.ustring) :
  (List.length tid =? 13)%nat = true ->
  (forallb TidUtf16.accepted (firstn 11 tid) = true ->
   TidUtf16.tidTimestamp toLowerCase tid
   = Ok (Tid.big_endian (map TidUtf16.symbol_value (firstn 11 tid))))
  /\ (forallb TidUtf16.accepted (firstn 11 tid) = false ->
      exists ch,
        TidUtf16.tidTimestamp toLowerCase tid
        = Throw (TidUtf16.InvalidBase32Character ch)
        /\ In ch (TidUtf16.codePoints (firstn 11 tid))
        /\ (forall u, ch = [u] -> TidUtf16.accepted u = false)).
Proof.
  intros Hlen. unfold TidUtf16.tidTimestamp. rewrite Hlen. cbn [negb].
  destruct (utf16_decodeLoop toLowerCase lower (List.length (firstn 11 tid))
              (firstn 11 tid) 0 (le_n _)) as [Hok Hthrow].
  split; [|exact Hthrow].
  intros H. rewrite (Hok H). f_equal; lia.
Qed.

Lemma utf16_tidToDate_succeeds
      (toLowerCase : TidUtf16.ustring -> TidUtf16.ustring)
      (lower : TidUtf16.jsLowerCase toLowerCase) (tid : TidUtf16.ustring) :
  succeeds (TidUtf16.tidToDate toLowerCase tid)
  = (List.length tid =? 13)%nat
    && forallb TidUtf16.accepted (firstn 11 tid).
Proof.
  unfold TidUtf16.tidToDate.
  destruct (List.length tid =? 13)%nat eqn:Hlen; cbn [andb].
  - destruct (utf16_tidTimestamp_spec toLowerCase lower tid Hlen)
      as [Hok Hthrow].
    destruct (forallb TidUtf16.accepted (firstn 11 tid)) eqn:A.
    + now rewrite (Hok eq_refl).
    + destruct (Hthrow eq_refl) as (ch & E & _). now rewrite E.
  - unfold TidUtf16.tidTimestamp. now rewrite Hlen.
Qed.

(** C1, as amended: on any JS string [tidToDate] throws exactly when the
    identifier's length, in UTF-16 code units, is not 13 or one of its
    first 11 characters is not one that lower-cases to a symbol of the
    alphabet [234567abcdefghijklmnopqrstuvwxyz]: one of [2]-[7],
    [a]-[z], [A]-[Z] and U+212A KELVIN SIGN.  It throws the length error
    in the first case and in the second the character error, for a
    character of the timestamp part that is not one of these.  The last
    two characters are never looked at. *)
Theorem tidToDate_utf16_throws_iff
        (toLowerCase : TidUtf16.ustring -> TidUtf16.ustring)
        (tid : TidUtf16.ustring) :
  TidUtf16.jsLowerCase toLowerCase ->
  (succeeds (TidUtf16.tidToDate toLowerCase tid)
   = (List.length tid =? 13)%nat
     && forallb TidUtf16.accepted (firstn 11 tid))
  /\ ((List.length tid =? 13)%nat = false <->
      TidUtf16.tidToDate toLowerCase tid
      = Throw (TidUtf16.InvalidTIDLength (List.length tid)))
  /\ ((List.length tid =? 13)%nat
      && negb (forallb TidUtf16.accepted (firstn 11 tid)) = true <->
      exists ch,
        TidUtf16.tidToDate toLowerCase tid
        = Throw (TidUtf16.InvalidBase32Character ch)
        /\ In ch (TidUtf16.codePoints (firstn 11 tid))
        /\ (forall u, ch = [u] -> TidUtf16.accepted u = false)).
Proof.
  intros lower. unfold TidUtf16.tidToDate.
  destruct (List.length tid =? 13)%nat eqn:Hlen; cbn [andb negb].
  - destruct (utf16_tidTimestamp_spec toLowerCase lower tid Hlen)
      as [Hok Hthrow].
    destruct (forallb TidUtf16.accepted (firstn 11 tid)) eqn:A; cbn [negb].
    + rewrite (Hok eq_refl). cbn [succeeds].
      split; [reflexivity|]. split; split; try discriminate.
      intros (ch & E & _). discriminate E.
    + destruct (Hthrow eq_refl) as (ch & E & I & Na). rewrite E.
      cbn [succeeds]. split; [reflexivity|].
      split; split; try discriminate; intros _; try reflexivity.
      exists ch. now repeat split.
  - unfold TidUtf16.tidTimestamp. rewrite Hlen. cbn [negb succeeds].
    split; [reflexivity|]. split; split; try reflexivity; try discriminate.
    intros (ch & E & _). discriminate E.
Qed.

Lemma lowerBasic_jsLowerCase : TidUtf16.jsLowerCase TidUtf16.lowerBasic.
Proof.
  unfold TidUtf16.jsLowerCase, TidUtf16.lowerBasic. repeat split.
  - intros u H. destruct (N.leb_spec 65 u), (N.leb_spec u 90);
      cbn [andb]; try lia. reflexivity.
  - intros u H N.
    destruct (N.leb_spec 65 u), (N.leb_spec u 90); cbn [andb]; try lia;
      destruct (N.eqb_spec u 8490), (N.eqb_spec u 304); try lia; reflexivity.
  - intros u H N.
    destruct (N.leb_spec 65 u), (N.leb_spec u 90); cbn [andb]; try lia.
    destruct (N.eqb_spec u 8490); [lia|].
    destruct (N.eqb_spec u 304).
    + exists 775%N. split; [right; now left | lia].
    + exists u. split; [now left | lia].
  - intros hi lo Hh Hl. exists hi. split; [now left|].
    unfold TidUtf16.isHighSurrogate in Hh.
    apply andb_true_iff in Hh as [Hh _]. apply N.leb_le in Hh. lia.
Qed.

(** An identifier with the Kelvin sign in its timestamp part and two
    characters outside the alphabet at its end decodes. *)
Lemma tidToDate_utf16_throws_iff_witness :
  let tid := TidUtf16.unitsOf "3jzfcijpj2" ++ [8490%N] ++ TidUtf16.unitsOf "!!" in
  succeeds (TidUtf16.tidToDate TidUtf16.lowerBasic tid) = true
  /\ succeeds (TidUtf16.tidToDate TidUtf16.lowerBasic
                 (TidUtf16.unitsOf "3jzfcijpj2" ++ [304%N]
                  ++ TidUtf16.unitsOf "22")) = false.
Proof.
  intros tid.
  destruct (tidToDate_utf16_throws_iff TidUtf16.lowerBasic tid
              lowerBasic_jsLowerCase) as (S & _).
  destruct (tidToDate_utf16_throws_iff TidUtf16.lowerBasic
              (TidUtf16.unitsOf "3jzfcijpj2" ++ [304%N]
               ++ TidUtf16.unitsOf "22")
              lowerBasic_jsLowerCase) as (S' & _).
  split; [rewrite S | rewrite S']; reflexivity.
Defined.

Lemma accepted_in_alphabet (c : ascii) :
  TidUtf16.accepted (N_of_ascii c) = in_alphabet c
  /\ (in_alphabet c = true ->
      TidUtf16.symbol_value (N_of_ascii c) = Tid.symbol_value c).
Proof.
  destruct c as [[] [] [] [] [] [] [] []]; vm_compute; split;
    try reflexivity; intros H; try reflexivity; discriminate H.
Qed.

Lemma forallb_accepted (l : list ascii) :
  forallb TidUtf16.accepted (map N_of_ascii l) = forallb in_alphabet l.
Proof.
  induction l as [|c l IH]; [reflexivity|].
  cbn [map forallb]. rewrite IH.
  now destruct (accepted_in_alphabet c) as [-> _].
Qed.

(** On a string of code units below 256 the two embeddings of
    [tidToDate] decode alike. *)
Lemma tidToDate_utf16_agrees
      (toLowerCase : TidUtf16.ustring -> TidUtf16.ustring) (tid : string) :
  TidUtf16.jsLowerCase toLowerCase ->
  match tidToDate tid, TidUtf16.tidToDate toLowerCase (TidUtf16.unitsOf tid) with
  | Ok a, Ok b => a = b
  | Throw _, Throw _ => True
  | _, _ => False
  end.
Proof.
  intros lower.
  pose proof (tidToDate_succeeds tid) as S.
  pose proof (utf16_tidToDate_succeeds toLowerCase lower (TidUtf16.unitsOf tid))
    as S'.
  assert (L : List.length (TidUtf16.unitsOf tid) = String.length tid)
    by (unfold TidUtf16.unitsOf; now rewrite length_map, chars_length).
  assert (F : firstn 11 (TidUtf16.unitsOf tid)
              = map N_of_ascii (firstn 11 (chars tid)))
    by (unfold TidUtf16.unitsOf; now rewrite firstn_map).
  assert (A : forallb TidUtf16.accepted (firstn 11 (TidUtf16.unitsOf tid))
              = forallb in_alphabet (firstn 11 (chars tid))).
  { rewrite F. apply forallb_accepted. }
  rewrite L, A in S'.
  destruct (String.length tid =? 13)%nat eqn:Hlen; cbn [andb] in *.
  - destruct (forallb in_alphabet (firstn 11 (chars tid))) eqn:Hall.
    + unfold tidToDate, TidUtf16.tidToDate.
      rewrite (tidTimestamp_ok tid Hlen Hall).
      destruct (utf16_tidTimestamp_spec toLowerCase lower (TidUtf16.unitsOf tid))
        as [Hok _]; [now rewrite L|].
      rewrite Hok by (now rewrite A). f_equal. f_equal.
      unfold encoded_micros. rewrite F, map_map. f_equal.
      apply map_ext_in. intros c Hc. rewrite forallb_forall in Hall.
      symmetry. now apply accepted_in_alphabet, Hall.
    + destruct (tidToDate tid); [discriminate S|].
      destruct (TidUtf16.tidToDate toLowerCase (TidUtf16.unitsOf tid));
        [discriminate S' | exact I].
  - destruct (tidToDate tid); [discriminate S|].
    destruct (TidUtf16.tidToDate toLowerCase (TidUtf16.unitsOf tid));
      [discriminate S' | exact I].
Qed.

(** * The paged listing, in the service's terms *)

Lemma split_single (s seg : string) : split "/" s = [seg] -> s = seg.
Proof.
  revert seg. induction s as [|c s IH]; intros seg H.
  - cbn in H. now injection H.
  - cbn [split] in H. destruct (Ascii.eqb c "/").
    + injection H as _ H. now apply split_not_nil in H.
    + destruct (split "/" s) as [|seg' segs] eqn:E;
        [now apply split_not_nil in E|].
      injection H as <- ->. f_equal. now apply IH.
Qed.

(** A URI is its record key alone or ends in a slash and the key. *)
Lemma rkeyOfUri_suffix (u : string) :
  u = rkeyOfUri u
  \/ exists prefix, u = String.append prefix (String "/" (rkeyOfUri u)).
Proof.
  unfold rkeyOfUri. induction u as [|c u IH]; [now left|].
  cbn [split]. destruct (Ascii.eqb_spec c "/") as [->|Hc].
  - right. rewrite last_cons_not_nil by apply split_not_nil.
    destruct IH as [IH | (prefix & IH)].
    + exists EmptyString. cbn [String.append]. now rewrite <- IH.
    + exists (String "/" prefix). cbn [String.append]. now rewrite <- IH.
  - destruct (split "/" u) as [|seg segs] eqn:E; [now apply split_not_nil in E|].
    destruct segs as [|seg' segs].
    + left. cbn [last]. f_equal. now apply split_single.
    + change (last (String c seg :: seg' :: segs) EmptyString)
        with (last (seg :: seg' :: segs) EmptyString).
      destruct IH as [IH | (prefix & IH)].
      * exfalso.
        pose proof (split_segments_no_slash u) as F. rewrite E in F.
        assert (N : noSlash (last (seg :: seg' :: segs) EmptyString) = true).
        { destruct (exists_last (l := seg :: seg' :: segs)) as (l & x & El);
            [discriminate|].
          rewrite El in *. rewrite last_last.
          apply Forall_app in F as [_ F]. now inversion F. }
        rewrite <- IH in N. rewrite (split_no_separator u N) in E.
        discriminate E.
      * right. exists (String c prefix). cbn [String.append]. now rewrite <- IH.
Qed.

Lemma entriesOfPages_uris (svc : ListService) (k n : nat) :
  map uri (entriesOfPages svc k n)
  = flat_map (fun j => records (responseAt svc j)) (seq k n).
Proof.
  unfold entriesOfPages. revert k.
  induction n as [|n IH]; intros k; [reflexivity|].
  cbn [seq flat_map]. rewrite map_app, IH, map_map. cbn [entryOf uri].
  now rewrite map_id.
Qed.

Lemma entriesOfPages_rkeys (svc : ListService) (k n : nat) :
  Forall (fun e => Records.rkey e = rkeyOfUri (uri e)) (entriesOfPages svc k n).
Proof.
  unfold entriesOfPages. apply Forall_forall. intros e H.
  apply in_flat_map in H as (j & _ & H).
  apply in_map_iff in H as (u & <- & _). reflexivity.
Qed.

(** C7: when the first [n] responses each carry 100 records or more and
    a non-empty cursor, and response [n] either has fewer than 100
    records (a cursor or not) or carries no cursor (or an empty one),
    [listAllRecords] returns after that response: it has sent [n + 1]
    requests, each with the cursor of the response before it, and has
    yielded the records of all [n + 1] pages, those of the last one
    too, in the order the service gave them, each with its URI and, as
    its key, what follows the last slash of the URI. *)
Theorem listAllRecords_terminates (svc : ListService) (n fuel : nat) :
  (forall j, (j < n)%nat ->
     (exists c, cursor (responseAt svc j) = Some c /\ c <> EmptyString)
     /\ (100 <= List.length (records (responseAt svc j)))%nat) ->
  (List.length (records (responseAt svc n)) < 100)%nat
  \/ cursor (responseAt svc n) = None
  \/ cursor (responseAt svc n) = Some EmptyString ->
  (n < fuel)%nat ->
  exists listing,
    listAllRecords fuel svc = Some listing
    /\ Records.requests listing = S n
    /\ map uri (yielded listing)
       = flat_map (fun j => records (responseAt svc j)) (seq 0 (S n))
    /\ Forall (fun e =>
                 noSlash (Records.rkey e) = true
                 /\ (uri e = Records.rkey e
                     \/ exists prefix,
                          uri e = String.append prefix
                                    (String "/" (Records.rkey e))))
              (yielded listing).
Proof.
  intros Hfull Hlast Hfuel.
  exists {| yielded := entriesOfPages svc 0 (S n); Records.requests := S n |}.
  split; [|split; [reflexivity | split]].
  - unfold listAllRecords. change (@None string) with (cursorSent svc 0).
    apply (listAllRecords_from_spec svc n 0 fuel).
    + intros j Hj. destruct (Hfull j ltac:(lia)) as ((c & Hc & Hne) & Hsize).
      unfold lastPage, shortPage, falsy, PAGE_SIZE. rewrite Hc.
      apply orb_false_iff. split.
      * destruct c; [congruence | reflexivity].
      * apply Z.ltb_ge. lia.
    + cbn [Nat.add]. unfold lastPage, shortPage, falsy, PAGE_SIZE.
      destruct Hlast as [H | [H | H]].
      * apply orb_true_iff. right. apply Z.ltb_lt. lia.
      * now rewrite H.
      * now rewrite H.
    + exact Hfuel.
  - cbn [yielded]. apply entriesOfPages_uris.
  - cbn [yielded]. eapply Forall_impl; [|apply entriesOfPages_rkeys].
    intros e ->. split.
    + unfold rkeyOfUri.
      pose proof (split_segments_no_slash (uri e)) as F.
      destruct (exists_last (split_not_nil (uri e))) as (l & x & El).
      rewrite El in *. rewrite last_last.
      apply Forall_app in F as [_ F]. now inversion F.
    + apply rkeyOfUri_suffix.
Qed.

(** The listing ends on a short page that still carries a cursor, and
    on a full page that carries none. *)
Lemma listAllRecords_terminates_witness :
  (cursor (responseAt endlessService 1) = Some "next"
   /\ option_map Records.requests (listAllRecords 5 endlessService) = Some 2%nat
   /\ option_map (fun l => List.length (yielded l))
                 (listAllRecords 5 endlessService) = Some 103%nat)
  /\ (List.length (records (responseAt twoFullPages 1)) = 100%nat
      /\ option_map Records.requests (listAllRecords 5 twoFullPages) = Some 2%nat
      /\ option_map (fun l => List.length (yielded l))
                    (listAllRecords 5 twoFullPages) = Some 200%nat).
Proof.
  split.
  - destruct (listAllRecords_terminates endlessService 1 5)
      as (listing & E & R & U & _).
    + intros j Hj. assert (j = 0%nat) as -> by lia.
      split; [exists "next"; split; [reflexivity | discriminate] | cbn; lia].
    + left. cbn. lia.
    + lia.
    + split; [reflexivity|]. rewrite E. cbn [option_map]. rewrite R.
      split; [reflexivity|].
      rewrite <- (length_map uri), U. reflexivity.
  - destruct (listAllRecords_terminates twoFullPages 1 5)
      as (listing & E & R & U & _).
    + intros j Hj. assert (j = 0%nat) as -> by lia.
      split; [exists "next"; split; [reflexivity | discriminate] | cbn; lia].
    + right. left. reflexivity.
    + lia.
    + split; [reflexivity|]. rewrite E. cbn [option_map]. rewrite R.
      split; [reflexivity|].
      rewrite <- (length_map uri), U. reflexivity.
Defined.
